(** * solver_iq: a toy DMFT solver for the Hubbard model (Hartree approximation)

    A shallow embedding of the notebook's code cells: the module-level
    dispersion [eps_k] and first-moment helper [get_hyb_fm], the classes
    [Model], [ImpuritySolver] and [SelfConsistency], and the driver [main].

    Numbers.  A Python [float] / NumPy [float64] is modelled by [float64]: a
    real number or one of the IEEE-754 special values [+inf], [-inf], [nan].
    Finite arithmetic is idealised (exact, unbounded range, unsigned zero);
    the special values follow IEEE-754.  A NumPy [complex128] is a pair of
    such components, with NumPy's own multiplication and division
    algorithms.  [np.pi] is [PI] and [np.cos] is [cos].

    Errors.  Python exceptions are values of [exn]; a computation that may
    raise returns a [result].  NumPy element access out of range raises
    [IndexError]; a Python-level division of a [float] or [complex] by zero
    raises [ZeroDivisionError]; a NumPy scalar division by zero raises
    nothing under NumPy's default error state (it warns and yields
    [inf]/[nan]), which the program never changes.

    Quadrature.  [scipy.integrate.dblquad] is an external collaborator; it is
    the single method of the class [Quad] and every result below holds for
    any instance, except where an instance is named. *)

From Stdlib Require Import String.
From Stdlib Require Import Reals Lra List Arith Lia.
From Stdlib Require Import ClassicalEpsilon FunctionalExtensionality.
Import ListNotations.

Open Scope R_scope.

(** ** Exact complex numbers *)

Definition C : Type := (R * R)%type.

Definition RtoC (x : R) : C := (x, 0).
Definition Ci : C := (0, 1).
Definition Cadd (z w : C) : C := (fst z + fst w, snd z + snd w).
Definition Csub (z w : C) : C := (fst z - fst w, snd z - snd w).
Definition Cmul (z w : C) : C :=
  (fst z * fst w - snd z * snd w, fst z * snd w + snd z * fst w).
Definition Cnorm2 (z : C) : R := fst z * fst z + snd z * snd z.
Definition Cinv (z : C) : C := (fst z / Cnorm2 z, - snd z / Cnorm2 z).
Definition Cdiv (z w : C) : C := Cmul z (Cinv w).
Definition Czero : C := (0, 0).
Definition Cone : C := (1, 0).

(** ** IEEE-754 doubles, idealised on the finite part *)

Inductive float64 : Type :=
| Finite (r : R)
| PInf
| MInf
| NaN.

Definition is_finite (x : float64) : Prop :=
  match x with Finite _ => True | _ => False end.

Definition to_R (x : float64) : R :=
  match x with Finite r => r | _ => 0 end.

Definition f_neg (x : float64) : float64 :=
  match x with
  | Finite r => Finite (- r)
  | PInf => MInf
  | MInf => PInf
  | NaN => NaN
  end.

Definition f_add (x y : float64) : float64 :=
  match x, y with
  | NaN, _ | _, NaN => NaN
  | Finite a, Finite b => Finite (a + b)
  | PInf, MInf | MInf, PInf => NaN
  | PInf, _ | _, PInf => PInf
  | MInf, _ | _, MInf => MInf
  end.

Definition f_sub (x y : float64) : float64 := f_add x (f_neg y).

(** An infinity times the finite [r]: [nan] for zero, else signed. *)
Definition inf_times (i : float64) (r : R) : float64 :=
  if Req_dec_T r 0 then NaN
  else if Rlt_dec 0 r then i else f_neg i.

Definition f_mul (x y : float64) : float64 :=
  match x, y with
  | NaN, _ | _, NaN => NaN
  | Finite a, Finite b => Finite (a * b)
  | Finite a, _ => inf_times y a
  | _, Finite b => inf_times x b
  | PInf, PInf | MInf, MInf => PInf
  | _, _ => MInf
  end.

(** C division of doubles: never traps. *)
Definition f_div (x y : float64) : float64 :=
  match x, y with
  | NaN, _ | _, NaN => NaN
  | Finite a, Finite b =>
      if Req_dec_T b 0 then
        if Req_dec_T a 0 then NaN
        else if Rlt_dec 0 a then PInf else MInf
      else Finite (a / b)
  | Finite _, _ => Finite 0
  | _, Finite b => if Rlt_dec b 0 then f_neg x else x
  | _, _ => NaN
  end.

Definition f_abs (x : float64) : float64 :=
  match x with
  | Finite r => Finite (Rabs r)
  | NaN => NaN
  | _ => PInf
  end.

(** [x >= y]; false as soon as one side is [nan]. *)
Definition f_geb (x y : float64) : bool :=
  match x, y with
  | NaN, _ | _, NaN => false
  | Finite a, Finite b => if Rle_dec b a then true else false
  | PInf, _ => true
  | _, MInf => true
  | _, _ => false
  end.

Definition f_is_zero (x : float64) : bool :=
  match x with
  | Finite r => if Req_dec_T r 0 then true else false
  | _ => false
  end.

(** ** NumPy complex128 *)

Record complex128 : Type := Cx { re : float64; im : float64 }.

Definition fin (z : C) : complex128 := Cx (Finite (fst z)) (Finite (snd z)).
Definition of_float (x : float64) : complex128 := Cx x (Finite 0).
Definition c_zero : complex128 := fin Czero.
Definition c_one : complex128 := fin Cone.
Definition c_i : complex128 := fin Ci.

Definition c_finite (z : complex128) : Prop := is_finite (re z) /\ is_finite (im z).

Definition c_add (a b : complex128) : complex128 :=
  Cx (f_add (re a) (re b)) (f_add (im a) (im b)).

Definition c_sub (a b : complex128) : complex128 :=
  Cx (f_sub (re a) (re b)) (f_sub (im a) (im b)).

Definition c_mul (a b : complex128) : complex128 :=
  Cx (f_sub (f_mul (re a) (re b)) (f_mul (im a) (im b)))
     (f_add (f_mul (re a) (im b)) (f_mul (im a) (re b))).

(** NumPy's complex division (Smith's algorithm).  A zero divisor takes the
    first branch: the components of the dividend are divided by [|0|], so
    [1/0] is [inf + nan j]; no exception is raised. *)
Definition c_div (a b : complex128) : complex128 :=
  let in2r_abs := f_abs (re b) in
  let in2i_abs := f_abs (im b) in
  if f_geb in2r_abs in2i_abs then
    if andb (f_is_zero in2r_abs) (f_is_zero in2i_abs) then
      Cx (f_div (re a) in2r_abs) (f_div (im a) in2r_abs)
    else
      let rat := f_div (im b) (re b) in
      let scl := f_div (Finite 1) (f_add (re b) (f_mul (im b) rat)) in
      Cx (f_mul (f_add (re a) (f_mul (im a) rat)) scl)
         (f_mul (f_sub (im a) (f_mul (re a) rat)) scl)
  else
    let rat := f_div (re b) (im b) in
    let scl := f_div (Finite 1) (f_add (im b) (f_mul (re b) rat)) in
    Cx (f_mul (f_add (f_mul (re a) rat) (im a)) scl)
       (f_mul (f_sub (f_mul (im a) rat) (re a)) scl).

(** ** Exceptions *)

Inductive exn : Type := IndexError | ZeroDivisionError.

Inductive result (A : Type) : Type :=
| Ok (a : A)
| Raise (e : exn).

Arguments Ok {A} a.
Arguments Raise {A} e.

Definition bind {A B : Type} (r : result A) (k : A -> result B) : result B :=
  match r with
  | Ok a => k a
  | Raise e => Raise e
  end.

Notation "x <- c1 ;; c2" := (bind c1 (fun x => c2))
  (at level 61, c1 at next level, right associativity).

Fixpoint mapM {A B : Type} (f : A -> result B) (l : list A) : result (list B) :=
  match l with
  | [] => Ok []
  | a :: l' => b <- f a ;; bs <- mapM f l' ;; Ok (b :: bs)
  end.

(** [out = zeros(N); for n in range(N): out[n] = body(n)]: the first
    exception aborts the loop and nothing of [out] is returned. *)
Definition for_range {A : Type} (N : nat) (body : nat -> result A) : result (list A) :=
  mapM body (seq 0 N).

(** NumPy element access [a[n]] for [n >= 0]. *)
Definition getitem {A : Type} (a : list A) (n : nat) : result A :=
  match nth_error a n with
  | Some x => Ok x
  | None => Raise IndexError
  end.

(** Python [x / y] on floats with a finite divisor. *)
Definition py_div (x y : R) : result R :=
  if Req_dec_T y 0 then Raise ZeroDivisionError else Ok (x / y).

(** The Matsubara frequency [1.0j * (2.0 * n + 1.0) * np.pi / beta], a Python
    [complex]: the products are exact, and Python's complex division raises
    on a zero divisor. *)
Definition iwn_exact (beta : R) (n : nat) : C :=
  Cdiv (Cmul (Cmul Ci (RtoC (2 * INR n + 1))) (RtoC PI)) (RtoC beta).

Definition iwn (beta : R) (n : nat) : result complex128 :=
  if Req_dec_T beta 0 then Raise ZeroDivisionError
  else Ok (fin (iwn_exact beta n)).

(** ** The quadrature collaborator

    [dblquad func a b gfun hfun] approximates the integral of [func y x] for
    [x] in [a, b] and [y] in [gfun x, hfun x], and returns a float. *)

Class Quad : Type :=
  dblquad : (R -> R -> float64) -> R -> R -> (R -> R) -> (R -> R) -> float64.

(** The limits of the Brillouin zone, as the code passes them to [dblquad]. *)
Definition kx_limit_low : R := - PI.
Definition kx_limit_high : R := PI.
Definition ky_limit_low : R -> R := fun _ => - PI.
Definition ky_limit_high : R -> R := fun _ => PI.

(** [(2.0 * np.pi) ** 2.0] *)
Definition two_pi_sq : R := (2 * PI) ^ 2.

(** ** Module-level dispersion and first moment *)

Definition eps_k (kx ky : R) : R := -2 * (cos kx + cos ky).

Definition eps_k_squared (kx ky : R) : R := eps_k kx ky * eps_k kx ky.

Definition get_hyb_fm `{Quad} : float64 :=
  let int_eps_k :=
    dblquad (fun kx ky => Finite (eps_k kx ky))
            kx_limit_low kx_limit_high ky_limit_low ky_limit_high in
  let int_eps_k_squared :=
    dblquad (fun kx ky => Finite (eps_k_squared kx ky))
            kx_limit_low kx_limit_high ky_limit_low ky_limit_high in
  f_mul (Finite (1 / two_pi_sq)) (f_sub int_eps_k_squared int_eps_k).

(** ** class Model *)

Module Model.

Record Model : Type := mk
  { t : R;                    (* hopping *)
    beta : R;                 (* 1/Temperature *)
    U : R;                    (* Hubbard interaction *)
    hyb : list complex128 }.  (* hybridization *)

Definition eps_k (self : Model) (kx ky : R) : R :=
  -2 * t self * (cos kx + cos ky).

End Model.

(** ** class ImpuritySolver *)

Module ImpuritySolver.

Record ImpuritySolver : Type := mk { model : Model.Model }.

(** [self.model.U / 2.0 * np.ones(shape, dtype=complex)] *)
Definition hartree_self_energy (self : ImpuritySolver) (N : nat) : list complex128 :=
  map (c_mul (of_float (Finite (Model.U (model self) / 2)))) (repeat c_one N).

(** The denominator [iwn - self.model.hyb[n] - self_energy[n]]. *)
Definition denominator (self : ImpuritySolver) (self_energy : list complex128)
    (n : nat) : result complex128 :=
  w <- iwn (Model.beta (model self)) n ;;
  h <- getitem (Model.hyb (model self)) n ;;
  s <- getitem self_energy n ;;
  Ok (c_sub (c_sub w h) s).

Definition solve (self : ImpuritySolver) : result (list complex128) :=
  let N := length (Model.hyb (model self)) in
  let self_energy := hartree_self_energy self N in
  for_range N (fun n =>
    d <- denominator self self_energy n ;;
    Ok (c_div c_one d)).

End ImpuritySolver.

(** ** class SelfConsistency *)

Module SelfConsistency.

Record SelfConsistency : Type := mk
  { model : Model.Model;
    green_impurity : list complex128 }.

(** The lattice Green function [1.0/(iwn - eps_k(kx, ky) - self_energy[n])]
    once [iwn] and [self_energy[n]] are known. *)
Definition green_lattice (self : SelfConsistency) (w s : complex128)
    (kx ky : R) : complex128 :=
  c_div c_one
    (c_sub (c_sub w (of_float (Finite (Model.eps_k (model self) kx ky)))) s).

Definition green_lattice_scalar_real (self : SelfConsistency) (kx ky : R)
    (self_energy : list complex128) (n : nat) : result float64 :=
  w <- iwn (Model.beta (model self)) n ;;
  s <- getitem self_energy n ;;
  Ok (re (green_lattice self w s kx ky)).

Definition green_lattice_scalar_imag (self : SelfConsistency) (kx ky : R)
    (self_energy : list complex128) (n : nat) : result float64 :=
  w <- iwn (Model.beta (model self)) n ;;
  s <- getitem self_energy n ;;
  Ok (im (green_lattice self w s kx ky)).

(** 0.) extract the self-energy from the green_impurity *)
Definition extract_self_energy (self : SelfConsistency) : result (list complex128) :=
  for_range (length (green_impurity self)) (fun n =>
    w <- iwn (Model.beta (model self)) n ;;
    h <- getitem (Model.hyb (model self)) n ;;
    g <- getitem (green_impurity self) n ;;
    Ok (c_sub (c_sub w h) (c_div c_one g))).

Section WithQuad.
Context `{Quad}.

(** One entry of the new Green function.  Whether the integrand raises
    does not depend on [(kx, ky)]: it is decided by [iwn] and
    [self_energy[n]], which are therefore resolved before the quadrature
    is called on the two real-valued integrands. *)
Definition lattice_entry (self : SelfConsistency) (w s : complex128) : complex128 :=
  let q_re := dblquad (fun kx ky => re (green_lattice self w s kx ky))
                kx_limit_low kx_limit_high ky_limit_low ky_limit_high in
  let q_im := dblquad (fun kx ky => im (green_lattice self w s kx ky))
                kx_limit_low kx_limit_high ky_limit_low ky_limit_high in
  c_div (c_add (of_float q_re) (c_mul c_i (of_float q_im)))
        (of_float (Finite two_pi_sq)).

(** 1.) Calculate a new green_impurity using the lattice green function *)
Definition green_impurity_new (self : SelfConsistency)
    (self_energy : list complex128) : result (list complex128) :=
  for_range (length (green_impurity self)) (fun n =>
    w <- iwn (Model.beta (model self)) n ;;
    s <- getitem self_energy n ;;
    Ok (lattice_entry self w s)).

(** 2.) extract new hyb *)
Definition extract_hyb (self : SelfConsistency)
    (self_energy g_new : list complex128) : result (list complex128) :=
  for_range (length (green_impurity self)) (fun n =>
    w <- iwn (Model.beta (model self)) n ;;
    g <- getitem g_new n ;;
    s <- getitem self_energy n ;;
    Ok (c_sub (c_sub w (c_div c_one g)) s)).

Definition run_selfconsistency (self : SelfConsistency) : result (list complex128) :=
  self_energy <- extract_self_energy self ;;
  g_new <- green_impurity_new self self_energy ;;
  extract_hyb self self_energy g_new.

End WithQuad.

End SelfConsistency.

(** ** The driver *)

Section Driver.
Context `{Quad}.

(** One pass of the loop body of [main], without the progress dot. *)
Definition iteration (t beta U : R) (hyb : list complex128) : result (list complex128) :=
  let model := Model.mk t beta U hyb in
  let impurity_solver := ImpuritySolver.mk model in
  green_impurity <- ImpuritySolver.solve impurity_solver ;;
  let selfconsistency := SelfConsistency.mk model green_impurity in
  SelfConsistency.run_selfconsistency selfconsistency.

(** [for ii in range(iter_max)]: [out] is what has been printed so far. *)
Fixpoint main_loop (iters : nat) (t beta U : R) (hyb : list complex128)
    (out : string) : string * result (list complex128) :=
  match iters with
  | O => (out, Ok hyb)
  | S k =>
      match iteration t beta U hyb with
      | Ok hyb' => main_loop k t beta U hyb' (out ++ ".")%string
      | Raise e => (out, Raise e)
      end
  end.

(** [main] with its simulation parameters as arguments. *)
Definition main_with (n_freq : nat) (t beta U : R) (iter_max : nat)
    : string * result (list R * list complex128) :=
  let hyb0 := repeat c_zero n_freq in
  let (out, r) := main_loop iter_max t beta U hyb0 ""%string in
  (out,
   hyb <- r ;;
   frequencies <- for_range n_freq (fun n => py_div ((2 * INR n + 1) * PI) beta) ;;
   Ok (frequencies, hyb)).

Definition main : string * result (list R * list complex128) :=
  main_with 200 (-1) 100 0 5.

End Driver.

(** ** The relations of the specification, in exact complex arithmetic *)

Module Spec.

(** [i*omega_n = i*(2n+1)*pi/beta] *)
Definition omega (beta : R) (n : nat) : R := (2 * INR n + 1) * PI / beta.
Definition iw (beta : R) (n : nat) : C := Cmul Ci (RtoC (omega beta n)).

(** [eps(kx,ky) = -2t(cos kx + cos ky)] *)
Definition eps (t kx ky : R) : R := -2 * t * (cos kx + cos ky).

(** [G_imp[n] = 1/(i*omega_n - hyb[n] - U/2)] *)
Definition G_imp_denominator (beta U : R) (h : C) (n : nat) : C :=
  Csub (Csub (iw beta n) h) (RtoC (U / 2)).
Definition G_imp (beta U : R) (h : C) (n : nat) : C :=
  Cdiv Cone (G_imp_denominator beta U h n).

(** [Sigma[n] = i*omega_n - hyb[n] - 1/G_imp[n]] *)
Definition Sigma (beta : R) (h g : C) (n : nat) : C :=
  Csub (Csub (iw beta n) h) (Cdiv Cone g).

(** [g_n(kx,ky) = 1/(i*omega_n - eps(kx,ky) - Sigma[n])] *)
Definition g_lattice_denominator (t beta : R) (sigma : C) (n : nat) (kx ky : R) : C :=
  Csub (Csub (iw beta n) (RtoC (eps t kx ky))) sigma.
Definition g_lattice (t beta : R) (sigma : C) (n : nat) (kx ky : R) : C :=
  Cdiv Cone (g_lattice_denominator t beta sigma n kx ky).

(** [G_new[n] = (1/(2*pi)^2) * (Q(Re g_n) + i*Q(Im g_n))] *)
Definition G_new (q_re q_im : R) : C :=
  Cmul (RtoC (1 / (2 * PI) ^ 2)) (Cadd (RtoC q_re) (Cmul Ci (RtoC q_im))).

(** [hyb_new[n] = i*omega_n - 1/G_new[n] - Sigma[n]] *)
Definition hyb_new (beta : R) (g_new sigma : C) (n : nat) : C :=
  Csub (Csub (iw beta n) (Cdiv Cone g_new)) sigma.

End Spec.

(** ** Two quadratures *)

(** The Riemann integral of [f] over [a, b] when it exists. *)
Definition RInt (f : R -> R) (a b : R) : R :=
  match excluded_middle_informative (inhabited (Riemann_integrable f a b)) with
  | left H =>
      RiemannInt
        (proj1_sig
           (constructive_indefinite_description
              (fun _ : Riemann_integrable f a b => True)
              (match H with inhabits p => ex_intro _ p I end)))
  | right _ => 0
  end.

(** [dblquad] read as exact integration: the iterated integral of a
    finite-valued integrand, [y] innermost. *)
Definition exact_dblquad : Quad :=
  fun func a b gfun hfun =>
    if excluded_middle_informative (forall y x, is_finite (func y x)) then
      Finite (RInt (fun x => RInt (fun y => to_R (func y x)) (gfun x) (hfun x)) a b)
    else NaN.

(** A one-point midpoint rule, the simplest quadrature there is. *)
Definition midpoint_dblquad : Quad :=
  fun func a b gfun hfun =>
    let x := (a + b) / 2 in
    let y := (gfun x + hfun x) / 2 in
    f_mul (func y x) (Finite ((b - a) * (hfun x - gfun x))).

(** ** Vocabulary for the statements *)

(** What [main] has printed after [k] passes. *)
Fixpoint dots (k : nat) : string :=
  match k with
  | O => ""%string
  | S k' => ("." ++ dots k')%string
  end.

(** The arithmetic of [get_hyb_fm] on an arbitrary dispersion. *)
Definition hyb_fm_with `{Quad} (eps : R -> R -> R) : float64 :=
  let int_eps :=
    dblquad (fun kx ky => Finite (eps kx ky))
            kx_limit_low kx_limit_high ky_limit_low ky_limit_high in
  let int_eps_squared :=
    dblquad (fun kx ky => Finite (eps kx ky * eps kx ky))
            kx_limit_low kx_limit_high ky_limit_low ky_limit_high in
  f_mul (Finite (1 / two_pi_sq)) (f_sub int_eps_squared int_eps).

(** The denominator of [ImpuritySolver.solve] as an expression of [n]. *)
Definition solve_denominator (m : Model.Model) (n : nat) : complex128 :=
  c_sub (c_sub (fin (Spec.iw (Model.beta m) n)) (nth n (Model.hyb m) c_zero))
        (fin (RtoC (Model.U m / 2))).

(** The three loops of [run_selfconsistency] as expressions of [n]. *)
Definition sigma_seq (m : Model.Model) (G : list complex128) : list complex128 :=
  map (fun n =>
         c_sub (c_sub (fin (Spec.iw (Model.beta m) n)) (nth n (Model.hyb m) c_zero))
               (c_div c_one (nth n G c_zero)))
      (seq 0 (length G)).

Definition g_new_seq `{Quad} (m : Model.Model) (G sigma : list complex128)
    : list complex128 :=
  map (fun n =>
         SelfConsistency.lattice_entry (SelfConsistency.mk m G)
           (fin (Spec.iw (Model.beta m) n)) (nth n sigma c_zero))
      (seq 0 (length G)).

Definition hyb_new_seq (m : Model.Model) (G sigma g_new : list complex128)
    : list complex128 :=
  map (fun n =>
         c_sub (c_sub (fin (Spec.iw (Model.beta m) n))
                      (c_div c_one (nth n g_new c_zero)))
               (nth n sigma c_zero))
      (seq 0 (length G)).

(** The one-step map of the driver: the output of one pass of the loop body
    on the hybridization [hyb], as an expression. *)
Definition dmft_step `{Quad} (t beta U : R) (hyb : list complex128) : list complex128 :=
  let m := Model.mk t beta U hyb in
  let G := map (fun n => c_div c_one (solve_denominator m n)) (seq 0 (length hyb)) in
  hyb_new_seq m G (sigma_seq m G) (g_new_seq m G (sigma_seq m G)).

(** One frequency of one pass of the loop body: the new [hyb[n]] as an
    expression of the old one. *)
Definition pass_entry `{Quad} (t beta U : R) (n : nat) (h : complex128) : complex128 :=
  let w := fin (Spec.iw beta n) in
  let g := c_div c_one (c_sub (c_sub w h) (fin (RtoC (U / 2)))) in
  let s := c_sub (c_sub w h) (c_div c_one g) in
  let g_new :=
    SelfConsistency.lattice_entry (SelfConsistency.mk (Model.mk t beta U []) []) w s in
  c_sub (c_sub w (c_div c_one g_new)) s.



(** * Properties *)

(** ** Loops and element access *)

Lemma mapM_pure {A B : Type} (f : A -> result B) (g : A -> B) (l : list A) :
  (forall a, In a l -> f a = Ok (g a)) -> mapM f l = Ok (map g l).
Proof.
  induction l as [|a l IH]; intros Hf; simpl.
  - reflexivity.
  - rewrite (Hf a (or_introl eq_refl)). simpl.
    rewrite IH by (intros b Hb; apply Hf; right; exact Hb).
    reflexivity.
Qed.

Lemma mapM_first_raise {A B : Type} (f : A -> result B) (g : A -> B)
    (l1 l2 : list A) (a : A) (e : exn) :
  (forall x, In x l1 -> f x = Ok (g x)) ->
  f a = Raise e ->
  mapM f (l1 ++ a :: l2) = Raise e.
Proof.
  induction l1 as [|x l1 IH]; intros Hok Ha; simpl.
  - rewrite Ha. reflexivity.
  - rewrite (Hok x (or_introl eq_refl)). simpl.
    rewrite IH; [reflexivity | | exact Ha].
    intros y Hy. apply Hok. right. exact Hy.
Qed.

Lemma for_range_first_raise {A : Type} (N k : nat) (body : nat -> result A)
    (g : nat -> A) (e : exn) :
  (k < N)%nat ->
  (forall n, (n < k)%nat -> body n = Ok (g n)) ->
  body k = Raise e ->
  for_range N body = Raise e.
Proof.
  intros Hk Hok Hr. unfold for_range.
  replace N with (k + S (N - S k))%nat by lia.
  rewrite seq_app. simpl.
  apply (mapM_first_raise body g); [|exact Hr].
  intros n Hn. apply in_seq in Hn. apply Hok. lia.
Qed.

Lemma for_range_pure {A : Type} (N : nat) (body : nat -> result A) (g : nat -> A) :
  (forall n, (n < N)%nat -> body n = Ok (g n)) ->
  for_range N body = Ok (map g (seq 0 N)).
Proof.
  intros Hb. apply mapM_pure. intros n Hn. apply in_seq in Hn. apply Hb. lia.
Qed.

Lemma nth_map_seq {A : Type} (g : nat -> A) (N n : nat) (d : A) :
  (n < N)%nat -> nth n (map g (seq 0 N)) d = g n.
Proof.
  intros Hn. rewrite (nth_indep _ d (g 0%nat)) by (rewrite length_map, length_seq; exact Hn).
  rewrite (map_nth g). rewrite seq_nth by exact Hn. reflexivity.
Qed.

Lemma getitem_nth {A : Type} (a : list A) (n : nat) (d : A) :
  (n < length a)%nat -> getitem a n = Ok (nth n a d).
Proof.
  intros Hn. unfold getitem. rewrite (nth_error_nth' a d Hn). reflexivity.
Qed.

Lemma getitem_out {A : Type} (a : list A) (n : nat) :
  (length a <= n)%nat -> getitem a n = Raise IndexError.
Proof.
  intros Hn. unfold getitem.
  destruct (nth_error a n) eqn:E; [|reflexivity].
  apply nth_error_None in Hn. congruence.
Qed.

(** ** Exact complex arithmetic *)

Lemma Cdiv_one (z : C) : Cdiv Cone z = Cinv z.
Proof.
  destruct z as [a b]. unfold Cdiv, Cmul, Cone, Cinv, Cnorm2. simpl.
  f_equal; ring.
Qed.

Lemma Cnorm2_pos (z : C) : z <> Czero -> 0 < Cnorm2 z.
Proof.
  destruct z as [a b]. unfold Cnorm2, Czero. simpl. intros Hz.
  destruct (Req_dec_T a 0) as [-> | Ha].
  - destruct (Req_dec_T b 0) as [-> | Hb]; [congruence | nra].
  - nra.
Qed.

Lemma Cinv_involutive (z : C) : z <> Czero -> Cinv (Cinv z) = z.
Proof.
  intros Hz. pose proof (Cnorm2_pos z Hz) as Hn.
  destruct z as [a b]. unfold Cinv, Cnorm2 in *. simpl in *.
  f_equal; field; nra.
Qed.

Lemma Cinv_nonzero (z : C) : z <> Czero -> Cinv z <> Czero.
Proof.
  intros Hz Hi. pose proof (Cnorm2_pos z Hz) as Hn. apply Hz.
  destruct z as [a b]. unfold Cinv, Czero in *. simpl in *.
  injection Hi as Ha Hb.
  assert (Hinv : 0 < / Cnorm2 (a, b)) by (apply Rinv_0_lt_compat; exact Hn).
  unfold Rdiv in Ha, Hb. f_equal; nra.
Qed.

Lemma iwn_exact_eq (beta : R) (n : nat) :
  beta <> 0 -> iwn_exact beta n = Spec.iw beta n.
Proof.
  intros Hb. unfold iwn_exact, Spec.iw, Spec.omega, Cdiv, Cmul, Cinv, Cnorm2, Ci, RtoC.
  simpl. f_equal; field; exact Hb.
Qed.

Lemma iwn_ok (beta : R) (n : nat) :
  beta <> 0 -> iwn beta n = Ok (fin (Spec.iw beta n)).
Proof.
  intros Hb. unfold iwn. destruct (Req_dec_T beta 0); [contradiction|].
  rewrite iwn_exact_eq by exact Hb. reflexivity.
Qed.

(** ** NumPy arithmetic on finite values agrees with exact arithmetic *)

Lemma c_sub_fin (z w : C) : c_sub (fin z) (fin w) = fin (Csub z w).
Proof. reflexivity. Qed.

Lemma c_add_fin (z w : C) : c_add (fin z) (fin w) = fin (Cadd z w).
Proof. reflexivity. Qed.

Lemma c_mul_fin (z w : C) : c_mul (fin z) (fin w) = fin (Cmul z w).
Proof.
  unfold c_mul, fin, Cmul, f_sub. simpl. f_equal.
Qed.

Lemma of_float_fin (x : R) : of_float (Finite x) = fin (RtoC x).
Proof. reflexivity. Qed.

Lemma c_div_fin (z w : C) : w <> Czero -> c_div (fin z) (fin w) = fin (Cdiv z w).
Proof.
  intros Hw. pose proof (Cnorm2_pos w Hw) as Hn.
  destruct z as [x y], w as [a b].
  unfold c_div, fin, Cdiv, Cmul, Cinv, Cnorm2 in *. simpl in *.
  destruct (Rle_dec (Rabs b) (Rabs a)) as [Hle | Hgt].
  - assert (Ha : a <> 0).
    { intros ->. rewrite Rabs_R0 in Hle.
      pose proof (Rabs_pos b). assert (Hb : Rabs b = 0) by lra.
      destruct (Req_dec_T b 0) as [-> | Hb0]; [lra|].
      apply Rabs_no_R0 in Hb0. contradiction. }
    destruct (Req_dec_T (Rabs a) 0) as [E | _].
    { apply Rabs_no_R0 in Ha. contradiction. }
    simpl.
    destruct (Req_dec_T a 0) as [E | _]; [contradiction|].
    simpl.
    assert (Hd : a + b * (b / a) <> 0).
    { replace (a + b * (b / a)) with ((a * a + b * b) / a) by (field; exact Ha).
      unfold Rdiv. apply Rmult_integral_contrapositive_currified; [lra|].
      apply Rinv_neq_0_compat; exact Ha. }
    destruct (Req_dec_T (a + b * (b / a)) 0) as [E | _]; [contradiction|].
    unfold f_sub. simpl. f_equal; f_equal; field; split; try assumption; lra.
  - assert (Hb : b <> 0).
    { intros ->. rewrite Rabs_R0 in Hgt. apply Hgt. apply Rabs_pos. }
    destruct (Req_dec_T b 0) as [E | _]; [contradiction|].
    simpl.
    assert (Hd : b + a * (a / b) <> 0).
    { replace (b + a * (a / b)) with ((a * a + b * b) / b) by (field; exact Hb).
      unfold Rdiv. apply Rmult_integral_contrapositive_currified; [lra|].
      apply Rinv_neq_0_compat; exact Hb. }
    destruct (Req_dec_T (b + a * (a / b)) 0) as [E | _]; [contradiction|].
    unfold f_sub. simpl. f_equal; f_equal; field; split; try assumption; lra.
Qed.

Lemma c_inv_fin (w : C) : w <> Czero -> c_div c_one (fin w) = fin (Cdiv Cone w).
Proof. apply c_div_fin. Qed.

(** Division by an exact zero: NumPy returns [inf + nan j]. *)
Lemma c_inv_zero : c_div c_one c_zero = Cx PInf NaN.
Proof.
  unfold c_div, c_one, c_zero, fin, Cone, Czero. simpl.
  rewrite Rabs_R0.
  destruct (Rle_dec 0 0) as [_ | H]; [|lra].
  destruct (Req_dec_T 0 0) as [_ | H]; [|lra].
  simpl.
  destruct (Req_dec_T 0 0) as [_ | H]; [|lra].
  destruct (Req_dec_T 1 0) as [H | _]; [lra|].
  destruct (Rlt_dec 0 1) as [_ | H]; [|lra].
  reflexivity.
Qed.

Lemma f_sub_nan_r (x : float64) : f_sub x NaN = NaN.
Proof. destruct x; reflexivity. Qed.

Lemma f_sub_nan_l (x : float64) : f_sub NaN x = NaN.
Proof. destruct x; reflexivity. Qed.

(** ** ImpuritySolver *)

Lemma hartree_self_energy_nth (self : ImpuritySolver.ImpuritySolver) (N n : nat) :
  (n < N)%nat ->
  nth n (ImpuritySolver.hartree_self_energy self N) c_zero
  = fin (RtoC (Model.U (ImpuritySolver.model self) / 2)).
Proof.
  intros Hn. unfold ImpuritySolver.hartree_self_energy.
  set (f := c_mul _).
  rewrite (nth_indep _ c_zero (f c_one)) by (rewrite length_map, repeat_length; exact Hn).
  rewrite (map_nth f). rewrite nth_repeat_lt by exact Hn.
  unfold f. rewrite of_float_fin. unfold c_one. rewrite c_mul_fin.
  unfold Cmul, RtoC, Cone. simpl. f_equal. f_equal; ring.
Qed.

Lemma hartree_self_energy_length (self : ImpuritySolver.ImpuritySolver) (N : nat) :
  length (ImpuritySolver.hartree_self_energy self N) = N.
Proof.
  unfold ImpuritySolver.hartree_self_energy. rewrite length_map, repeat_length. reflexivity.
Qed.

Lemma denominator_ok (m : Model.Model) (n : nat) :
  Model.beta m <> 0 -> (n < length (Model.hyb m))%nat ->
  ImpuritySolver.denominator (ImpuritySolver.mk m)
    (ImpuritySolver.hartree_self_energy (ImpuritySolver.mk m) (length (Model.hyb m))) n
  = Ok (solve_denominator m n).
Proof.
  intros Hb Hn. unfold ImpuritySolver.denominator. simpl.
  rewrite iwn_ok by exact Hb. simpl.
  rewrite (getitem_nth _ _ c_zero) by exact Hn. simpl.
  rewrite (getitem_nth _ _ c_zero) by (rewrite hartree_self_energy_length; exact Hn). simpl.
  rewrite hartree_self_energy_nth by exact Hn. reflexivity.
Qed.

Lemma solve_ok (m : Model.Model) :
  Model.beta m <> 0 ->
  ImpuritySolver.solve (ImpuritySolver.mk m)
  = Ok (map (fun n => c_div c_one (solve_denominator m n))
            (seq 0 (length (Model.hyb m)))).
Proof.
  intros Hb. unfold ImpuritySolver.solve. simpl.
  apply for_range_pure. intros n Hn.
  rewrite denominator_ok by assumption. reflexivity.
Qed.

Lemma solve_denominator_fin (m : Model.Model) (n : nat) (h : C) :
  nth n (Model.hyb m) c_zero = fin h ->
  solve_denominator m n = fin (Spec.G_imp_denominator (Model.beta m) (Model.U m) h n).
Proof.
  intros Hh. unfold solve_denominator. rewrite Hh. reflexivity.
Qed.

(** C2: for [beta > 0] and a hybridization of length [N],
    [ImpuritySolver.solve] returns a sequence of length [N] whose [n]-th
    entry is [1/(i*omega_n - hyb[n] - U/2)], the self-energy being the
    constant [U/2]; on a finite [hyb[n]] with a nonzero denominator this is
    the exact complex quotient. *)
Theorem solve_spec (m : Model.Model) (N : nat) :
  0 < Model.beta m ->
  length (Model.hyb m) = N ->
  exists G,
    ImpuritySolver.solve (ImpuritySolver.mk m) = Ok G /\
    length G = N /\
    forall n, (n < N)%nat ->
      nth n G c_zero
      = c_div c_one
          (c_sub (c_sub (fin (Spec.iw (Model.beta m) n)) (nth n (Model.hyb m) c_zero))
                 (fin (RtoC (Model.U m / 2)))) /\
      forall h, nth n (Model.hyb m) c_zero = fin h ->
        Spec.G_imp_denominator (Model.beta m) (Model.U m) h n <> Czero ->
        nth n G c_zero = fin (Spec.G_imp (Model.beta m) (Model.U m) h n).
Proof.
  intros Hb HN.
  eexists. split; [apply solve_ok; lra|].
  split; [rewrite length_map, length_seq; exact HN|].
  intros n Hn. rewrite HN. rewrite nth_map_seq by exact Hn.
  split; [reflexivity|].
  intros h Hh Hd. rewrite (solve_denominator_fin m n h Hh).
  rewrite c_inv_fin by exact Hd. reflexivity.
Qed.

Lemma solve_spec_witness :
  exists G,
    ImpuritySolver.solve (ImpuritySolver.mk (Model.mk (-1) 100 0 [c_zero; c_zero])) = Ok G /\
    length G = 2%nat /\
    forall n, (n < 2)%nat ->
      nth n G c_zero
      = c_div c_one
          (c_sub (c_sub (fin (Spec.iw 100 n)) (nth n [c_zero; c_zero] c_zero))
                 (fin (RtoC (0 / 2)))) /\
      forall h, nth n [c_zero; c_zero] c_zero = fin h ->
        Spec.G_imp_denominator 100 0 h n <> Czero ->
        nth n G c_zero = fin (Spec.G_imp 100 0 h n).
Proof.
  apply (solve_spec (Model.mk (-1) 100 0 [c_zero; c_zero]) 2).
  - simpl. lra.
  - reflexivity.
Defined.

Lemma omega_pos (beta : R) (n : nat) : 0 < beta -> 0 < Spec.omega beta n.
Proof.
  intros Hb. unfold Spec.omega.
  pose proof (pos_INR n). pose proof PI_RGT_0.
  apply Rdiv_lt_0_compat; [nra | exact Hb].
Qed.

Lemma G_imp_denominator_zero_iff (beta U : R) (h : C) (n : nat) :
  Spec.G_imp_denominator beta U h n = Czero <-> h = (- (U / 2), Spec.omega beta n).
Proof.
  destruct h as [a b].
  unfold Spec.G_imp_denominator, Spec.iw, Csub, Cmul, Ci, RtoC, Czero. simpl.
  split; intros E; injection E as E1 E2; f_equal; lra.
Qed.

(** C5, as stated, fails: with [beta = pi], [U = 0] and [hyb = [1j]] the
    denominator at [n = 0] is exactly zero, and [G_imp[0]] is [inf + nan j]. *)
Lemma denominator_vanishes :
  0 < PI /\
  ImpuritySolver.denominator (ImpuritySolver.mk (Model.mk (-1) PI 0 [c_i]))
    (ImpuritySolver.hartree_self_energy (ImpuritySolver.mk (Model.mk (-1) PI 0 [c_i])) 1) 0
  = Ok c_zero /\
  ImpuritySolver.solve (ImpuritySolver.mk (Model.mk (-1) PI 0 [c_i])) = Ok [Cx PInf NaN].
Proof.
  pose proof PI_RGT_0 as Hpi.
  assert (Hd : solve_denominator (Model.mk (-1) PI 0 [c_i]) 0 = c_zero).
  { rewrite (solve_denominator_fin _ _ Ci) by reflexivity.
    unfold c_zero. f_equal. apply G_imp_denominator_zero_iff.
    unfold Ci, Spec.omega. simpl. f_equal; field; lra. }
  split; [exact Hpi|]. split.
  - change 1%nat with (length (Model.hyb (Model.mk (-1) PI 0 [c_i]))).
    rewrite denominator_ok by (simpl; try lra; lia).
    rewrite Hd. reflexivity.
  - rewrite solve_ok by (simpl; lra). simpl. rewrite Hd, c_inv_zero. reflexivity.
Qed.

(** C5, amended: for [beta > 0] and a finite [hyb[n] = h], the denominator
    [i*omega_n - h - U/2] vanishes exactly when [h = -U/2 + i*omega_n]; it is
    nonzero whenever [Im h] differs from [omega_n], in particular whenever
    [Im h <= 0], and then the division is the exact complex quotient.
    [solve] raises nothing. *)
Theorem denominator_nonzero_iff (m : Model.Model) (n : nat) (h : C) :
  0 < Model.beta m ->
  nth_error (Model.hyb m) n = Some (fin h) ->
  let d := Spec.G_imp_denominator (Model.beta m) (Model.U m) h n in
  ImpuritySolver.denominator (ImpuritySolver.mk m)
    (ImpuritySolver.hartree_self_energy (ImpuritySolver.mk m) (length (Model.hyb m))) n
  = Ok (fin d) /\
  (d = Czero <-> h = (- (Model.U m / 2), Spec.omega (Model.beta m) n)) /\
  (snd h <> Spec.omega (Model.beta m) n -> d <> Czero) /\
  (snd h <= 0 -> d <> Czero) /\
  (d <> Czero ->
   c_div c_one (fin d) = fin (Spec.G_imp (Model.beta m) (Model.U m) h n)) /\
  exists G, ImpuritySolver.solve (ImpuritySolver.mk m) = Ok G.
Proof.
  intros Hb Hh d.
  assert (Hn : (n < length (Model.hyb m))%nat).
  { apply nth_error_Some. rewrite Hh. discriminate. }
  assert (Hnth : nth n (Model.hyb m) c_zero = fin h).
  { apply nth_error_nth. exact Hh. }
  assert (Him : snd h <> Spec.omega (Model.beta m) n -> d <> Czero).
  { intros Hne Hd. apply G_imp_denominator_zero_iff in Hd. apply Hne.
    rewrite Hd. reflexivity. }
  split.
  { rewrite denominator_ok by (try lra; exact Hn).
    rewrite (solve_denominator_fin m n h Hnth). reflexivity. }
  split; [apply G_imp_denominator_zero_iff|].
  split; [exact Him|].
  split.
  { intros Hle. apply Him. pose proof (omega_pos (Model.beta m) n Hb). lra. }
  split.
  { intros Hd. apply c_inv_fin. exact Hd. }
  eexists. apply solve_ok. lra.
Qed.

Lemma denominator_nonzero_iff_witness :
  Spec.G_imp_denominator 100 0 Czero 0 <> Czero.
Proof.
  apply (denominator_nonzero_iff (Model.mk (-1) 100 0 [c_zero]) 0 Czero).
  - simpl. lra.
  - reflexivity.
  - simpl. lra.
Defined.

(** ** Dispersion *)

(** C8: [Model.eps_k(kx, ky)] is [-2*t*(cos kx + cos ky)] for all real
    arguments and every hopping [t]; its values at the four symmetry points
    are [-4t], [0], [0] and [4t].  It is a total function of its arguments. *)
Theorem Model_eps_k_spec (m : Model.Model) :
  (forall kx ky, Model.eps_k m kx ky = Spec.eps (Model.t m) kx ky) /\
  Model.eps_k m 0 0 = -4 * Model.t m /\
  Model.eps_k m PI 0 = 0 /\
  Model.eps_k m 0 PI = 0 /\
  Model.eps_k m PI PI = 4 * Model.t m.
Proof.
  unfold Model.eps_k, Spec.eps. rewrite cos_0, cos_PI.
  repeat split; ring.
Qed.

Lemma eps_k_is_Model_eps_k_at_one (beta U : R) (hyb : list complex128) :
  eps_k = Model.eps_k (Model.mk 1 beta U hyb).
Proof.
  apply functional_extensionality; intros kx.
  apply functional_extensionality; intros ky.
  unfold eps_k, Model.eps_k. simpl. ring.
Qed.

(** ** SelfConsistency *)

Lemma sigma_seq_length (m : Model.Model) (G : list complex128) :
  length (sigma_seq m G) = length G.
Proof. unfold sigma_seq. rewrite length_map, length_seq. reflexivity. Qed.

Lemma g_new_seq_length `{Quad} (m : Model.Model) (G sigma : list complex128) :
  length (g_new_seq m G sigma) = length G.
Proof. unfold g_new_seq. rewrite length_map, length_seq. reflexivity. Qed.

Lemma hyb_new_seq_length (m : Model.Model) (G sigma g_new : list complex128) :
  length (hyb_new_seq m G sigma g_new) = length G.
Proof. unfold hyb_new_seq. rewrite length_map, length_seq. reflexivity. Qed.

Lemma extract_self_energy_ok (m : Model.Model) (G : list complex128) :
  Model.beta m <> 0 ->
  (length G <= length (Model.hyb m))%nat ->
  SelfConsistency.extract_self_energy (SelfConsistency.mk m G) = Ok (sigma_seq m G).
Proof.
  intros Hb Hlen. unfold SelfConsistency.extract_self_energy, sigma_seq. simpl.
  apply for_range_pure. intros n Hn.
  rewrite iwn_ok by exact Hb. simpl.
  rewrite (getitem_nth _ _ c_zero) by lia. simpl.
  rewrite (getitem_nth _ _ c_zero) by exact Hn. reflexivity.
Qed.

Lemma green_impurity_new_ok `{Quad} (m : Model.Model) (G sigma : list complex128) :
  Model.beta m <> 0 ->
  length sigma = length G ->
  SelfConsistency.green_impurity_new (SelfConsistency.mk m G) sigma
  = Ok (g_new_seq m G sigma).
Proof.
  intros Hb Hlen. unfold SelfConsistency.green_impurity_new, g_new_seq. simpl.
  apply for_range_pure. intros n Hn.
  rewrite iwn_ok by exact Hb. simpl.
  rewrite (getitem_nth _ _ c_zero) by lia. reflexivity.
Qed.

Lemma extract_hyb_ok `{Quad} (m : Model.Model) (G sigma g_new : list complex128) :
  Model.beta m <> 0 ->
  length sigma = length G ->
  length g_new = length G ->
  SelfConsistency.extract_hyb (SelfConsistency.mk m G) sigma g_new
  = Ok (hyb_new_seq m G sigma g_new).
Proof.
  intros Hb Hs Hg. unfold SelfConsistency.extract_hyb, hyb_new_seq. simpl.
  apply for_range_pure. intros n Hn.
  rewrite iwn_ok by exact Hb. simpl.
  rewrite (getitem_nth _ _ c_zero) by lia. simpl.
  rewrite (getitem_nth _ _ c_zero) by lia. reflexivity.
Qed.

Lemma run_selfconsistency_ok `{Quad} (m : Model.Model) (G : list complex128) :
  Model.beta m <> 0 ->
  (length G <= length (Model.hyb m))%nat ->
  SelfConsistency.run_selfconsistency (SelfConsistency.mk m G)
  = Ok (hyb_new_seq m G (sigma_seq m G) (g_new_seq m G (sigma_seq m G))).
Proof.
  intros Hb Hlen. unfold SelfConsistency.run_selfconsistency.
  rewrite extract_self_energy_ok by assumption. simpl.
  rewrite green_impurity_new_ok by (try assumption; apply sigma_seq_length). simpl.
  apply extract_hyb_ok; [assumption | apply sigma_seq_length | apply g_new_seq_length].
Qed.

(** The integrand methods agree with [green_lattice] at every sample point. *)
Lemma green_lattice_scalar_ok (m : Model.Model) (G sigma : list complex128)
    (n : nat) (kx ky : R) :
  Model.beta m <> 0 ->
  (n < length sigma)%nat ->
  let self := SelfConsistency.mk m G in
  let z := SelfConsistency.green_lattice self (fin (Spec.iw (Model.beta m) n))
             (nth n sigma c_zero) kx ky in
  SelfConsistency.green_lattice_scalar_real self kx ky sigma n = Ok (re z) /\
  SelfConsistency.green_lattice_scalar_imag self kx ky sigma n = Ok (im z).
Proof.
  intros Hb Hn self z.
  unfold SelfConsistency.green_lattice_scalar_real,
         SelfConsistency.green_lattice_scalar_imag. simpl.
  rewrite iwn_ok by exact Hb. simpl.
  rewrite (getitem_nth _ _ c_zero) by exact Hn. simpl. split; reflexivity.
Qed.

Lemma two_pi_sq_pos : 0 < two_pi_sq.
Proof. unfold two_pi_sq. pose proof PI_RGT_0. nra. Qed.

Lemma lattice_entry_fin `{Quad} (self : SelfConsistency.SelfConsistency)
    (w s : complex128) (a b : R) :
  dblquad (fun kx ky => re (SelfConsistency.green_lattice self w s kx ky))
          kx_limit_low kx_limit_high ky_limit_low ky_limit_high = Finite a ->
  dblquad (fun kx ky => im (SelfConsistency.green_lattice self w s kx ky))
          kx_limit_low kx_limit_high ky_limit_low ky_limit_high = Finite b ->
  SelfConsistency.lattice_entry self w s = fin (Spec.G_new a b).
Proof.
  intros Ha Hb. unfold SelfConsistency.lattice_entry. rewrite Ha, Hb.
  rewrite !of_float_fin. unfold c_i. rewrite c_mul_fin, c_add_fin.
  pose proof two_pi_sq_pos as Hp.
  rewrite c_div_fin.
  - f_equal. unfold Spec.G_new, Cdiv, Cmul, Cinv, Cnorm2, Cadd, Ci, RtoC.
    fold two_pi_sq. simpl. f_equal; field; lra.
  - unfold RtoC, Czero. intros E. injection E as E. lra.
Qed.

(** C1: for [beta > 0], a hybridization and an impurity Green function of
    length [N], [run_selfconsistency] returns a sequence [hyb_new] of length
    [N] with, at every [n < N]:
    [Sigma[n] = i*omega_n - hyb[n] - 1/G_imp[n]];
    [G_new[n] = (1/(2*pi)^2) * (Q(Re g_n) + i*Q(Im g_n))], where [Q] is the
    quadrature over the square [-pi, pi] x [-pi, pi] and
    [g_n(kx,ky) = 1/(i*omega_n - eps(kx,ky) - Sigma[n])];
    [hyb_new[n] = i*omega_n - 1/G_new[n] - Sigma[n]].
    The two integrand methods return the real and the imaginary part of
    [g_n].  The relations hold in NumPy's arithmetic throughout, and in exact
    complex arithmetic wherever the values are finite and the divisors
    nonzero (in particular where [G_imp[n]] is not zero). *)
Theorem run_selfconsistency_spec `{Quad} (m : Model.Model) (G : list complex128) (N : nat) :
  0 < Model.beta m ->
  length (Model.hyb m) = N ->
  length G = N ->
  let self := SelfConsistency.mk m G in
  exists Sigma G_new hyb_new,
    SelfConsistency.extract_self_energy self = Ok Sigma /\
    SelfConsistency.green_impurity_new self Sigma = Ok G_new /\
    SelfConsistency.run_selfconsistency self = Ok hyb_new /\
    length hyb_new = N /\
    forall n, (n < N)%nat ->
      let w := fin (Spec.iw (Model.beta m) n) in
      let s := nth n Sigma c_zero in
      let g_n := fun kx ky =>
        c_div c_one (c_sub (c_sub w (of_float (Finite (Spec.eps (Model.t m) kx ky)))) s) in
      let q_re := dblquad (fun kx ky => re (g_n kx ky))
                    (- PI) PI (fun _ => - PI) (fun _ => PI) in
      let q_im := dblquad (fun kx ky => im (g_n kx ky))
                    (- PI) PI (fun _ => - PI) (fun _ => PI) in
      s = c_sub (c_sub w (nth n (Model.hyb m) c_zero)) (c_div c_one (nth n G c_zero)) /\
      nth n G_new c_zero
      = c_div (c_add (of_float q_re) (c_mul c_i (of_float q_im)))
              (of_float (Finite ((2 * PI) ^ 2))) /\
      nth n hyb_new c_zero = c_sub (c_sub w (c_div c_one (nth n G_new c_zero))) s /\
      (forall kx ky,
         SelfConsistency.green_lattice_scalar_real self kx ky Sigma n = Ok (re (g_n kx ky)) /\
         SelfConsistency.green_lattice_scalar_imag self kx ky Sigma n = Ok (im (g_n kx ky))) /\
      (forall h g, nth n (Model.hyb m) c_zero = fin h -> nth n G c_zero = fin g ->
         g <> Czero -> s = fin (Spec.Sigma (Model.beta m) h g n)) /\
      (forall sigma kx ky, s = fin sigma ->
         Spec.g_lattice_denominator (Model.t m) (Model.beta m) sigma n kx ky <> Czero ->
         g_n kx ky = fin (Spec.g_lattice (Model.t m) (Model.beta m) sigma n kx ky)) /\
      (forall a b, q_re = Finite a -> q_im = Finite b ->
         nth n G_new c_zero = fin (Spec.G_new a b)) /\
      (forall gamma sigma, nth n G_new c_zero = fin gamma -> gamma <> Czero ->
         s = fin sigma ->
         nth n hyb_new c_zero = fin (Spec.hyb_new (Model.beta m) gamma sigma n)).
Proof.
  intros Hb Hh HG self.
  assert (Hb0 : Model.beta m <> 0) by lra.
  exists (sigma_seq m G), (g_new_seq m G (sigma_seq m G)),
         (hyb_new_seq m G (sigma_seq m G) (g_new_seq m G (sigma_seq m G))).
  split; [apply extract_self_energy_ok; [exact Hb0 | lia]|].
  split; [apply green_impurity_new_ok; [exact Hb0 | apply sigma_seq_length]|].
  split; [apply run_selfconsistency_ok; [exact Hb0 | lia]|].
  split; [rewrite hyb_new_seq_length; exact HG|].
  intros n Hn w s g_n q_re q_im.
  assert (Hs : s = c_sub (c_sub w (nth n (Model.hyb m) c_zero))
                     (c_div c_one (nth n G c_zero))).
  { unfold s, sigma_seq. rewrite HG. rewrite nth_map_seq by exact Hn. reflexivity. }
  assert (Hg : nth n (g_new_seq m G (sigma_seq m G)) c_zero
               = SelfConsistency.lattice_entry self w s).
  { unfold g_new_seq. rewrite HG. rewrite nth_map_seq by exact Hn. reflexivity. }
  assert (Hy : nth n (hyb_new_seq m G (sigma_seq m G) (g_new_seq m G (sigma_seq m G))) c_zero
               = c_sub (c_sub w (c_div c_one (nth n (g_new_seq m G (sigma_seq m G)) c_zero))) s).
  { unfold hyb_new_seq at 1. rewrite HG. rewrite nth_map_seq by exact Hn. reflexivity. }
  split; [exact Hs|].
  split; [rewrite Hg; reflexivity|].
  split; [exact Hy|].
  split.
  { intros kx ky.
    apply (green_lattice_scalar_ok m G (sigma_seq m G) n kx ky Hb0).
    rewrite sigma_seq_length, HG. exact Hn. }
  split.
  { intros h g Eh Eg Hg0. rewrite Hs, Eh, Eg.
    rewrite c_inv_fin by exact Hg0. reflexivity. }
  split.
  { intros sigma kx ky Es Hd. unfold g_n. rewrite Es, of_float_fin.
    unfold w. rewrite !c_sub_fin. apply c_inv_fin. exact Hd. }
  split.
  { intros a b Ea Eb. rewrite Hg. apply lattice_entry_fin; assumption. }
  intros gamma sigma Eg Hg0 Es. rewrite Hy, Eg, Es.
  rewrite c_inv_fin by exact Hg0. reflexivity.
Qed.

Lemma run_selfconsistency_spec_witness :
  exists hyb_new,
    @SelfConsistency.run_selfconsistency midpoint_dblquad
      (SelfConsistency.mk (Model.mk (-1) 100 0 [c_zero]) [fin (0, -1)]) = Ok hyb_new /\
    length hyb_new = 1%nat.
Proof.
  destruct (@run_selfconsistency_spec midpoint_dblquad
              (Model.mk (-1) 100 0 [c_zero]) [fin (0, -1)] 1)
    as (Sigma & G_new & hyb_new & _ & _ & Hrun & Hlen & _).
  - simpl. lra.
  - reflexivity.
  - reflexivity.
  - exists hyb_new. split; [exact Hrun | exact Hlen].
Defined.

(** C4: for [beta > 0] and a finite hybridization whose ImpuritySolver
    denominators are nonzero, the self-energy that the self-consistency step
    extracts from the output of [ImpuritySolver.solve] is exactly [U/2] at
    every frequency. *)
Theorem hartree_self_energy_recovered (m : Model.Model) (N : nat) :
  0 < Model.beta m ->
  length (Model.hyb m) = N ->
  (forall n, (n < N)%nat ->
     exists h, nth n (Model.hyb m) c_zero = fin h /\
               Spec.G_imp_denominator (Model.beta m) (Model.U m) h n <> Czero) ->
  exists G_imp Sigma,
    ImpuritySolver.solve (ImpuritySolver.mk m) = Ok G_imp /\
    SelfConsistency.extract_self_energy (SelfConsistency.mk m G_imp) = Ok Sigma /\
    length Sigma = N /\
    forall n, (n < N)%nat -> nth n Sigma c_zero = fin (RtoC (Model.U m / 2)).
Proof.
  intros Hb HN Hden.
  assert (Hb0 : Model.beta m <> 0) by lra.
  set (G := map (fun n => c_div c_one (solve_denominator m n))
                (seq 0 (length (Model.hyb m)))).
  assert (HG : length G = N).
  { unfold G. rewrite length_map, length_seq. exact HN. }
  exists G, (sigma_seq m G).
  split; [apply solve_ok; exact Hb0|].
  split; [apply extract_self_energy_ok; [exact Hb0 | lia]|].
  split; [rewrite sigma_seq_length; exact HG|].
  intros n Hn. destruct (Hden n Hn) as (h & Eh & Hd).
  unfold sigma_seq. rewrite HG. rewrite nth_map_seq by exact Hn.
  unfold G. rewrite HN. rewrite nth_map_seq by exact Hn.
  rewrite (solve_denominator_fin m n h Eh), Eh.
  rewrite c_inv_fin by exact Hd.
  rewrite Cdiv_one.
  rewrite c_inv_fin by (apply Cinv_nonzero; exact Hd).
  rewrite Cdiv_one, Cinv_involutive by exact Hd.
  rewrite !c_sub_fin. f_equal.
  destruct h as [a b].
  unfold Spec.G_imp_denominator, Csub, RtoC. simpl. f_equal; ring.
Qed.

Lemma hartree_self_energy_recovered_witness :
  exists G_imp Sigma,
    ImpuritySolver.solve (ImpuritySolver.mk (Model.mk (-1) 100 4 [c_zero])) = Ok G_imp /\
    SelfConsistency.extract_self_energy
      (SelfConsistency.mk (Model.mk (-1) 100 4 [c_zero]) G_imp) = Ok Sigma /\
    length Sigma = 1%nat /\
    forall n, (n < 1)%nat -> nth n Sigma c_zero = fin (RtoC (4 / 2)).
Proof.
  apply (hartree_self_energy_recovered (Model.mk (-1) 100 4 [c_zero]) 1).
  - simpl. lra.
  - reflexivity.
  - intros n Hn. exists Czero. split.
    + destruct n as [|n]; [reflexivity | lia].
    + intros E. apply G_imp_denominator_zero_iff in E.
      unfold Czero in E. injection E as E _. simpl in E. lra.
Defined.

(** ** The driver *)

Lemma string_app_nil_r (s : string) : (s ++ "")%string = s.
Proof. induction s as [|c s IH]; simpl; [reflexivity | rewrite IH; reflexivity]. Qed.

Lemma string_app_assoc (s1 s2 s3 : string) :
  ((s1 ++ s2) ++ s3)%string = (s1 ++ (s2 ++ s3))%string.
Proof. induction s1 as [|c s IH]; simpl; [reflexivity | rewrite IH; reflexivity]. Qed.

Lemma dots_length (k : nat) : String.length (dots k) = k.
Proof. induction k as [|k IH]; simpl; [reflexivity | rewrite IH; reflexivity]. Qed.

Lemma iteration_ok `{Quad} (t beta U : R) (hyb : list complex128) :
  beta <> 0 -> iteration t beta U hyb = Ok (dmft_step t beta U hyb).
Proof.
  intros Hb. unfold iteration.
  rewrite solve_ok by exact Hb. simpl.
  rewrite run_selfconsistency_ok; [reflexivity | exact Hb |].
  simpl. rewrite length_map, length_seq. lia.
Qed.

Lemma dmft_step_length `{Quad} (t beta U : R) (hyb : list complex128) :
  length (dmft_step t beta U hyb) = length hyb.
Proof.
  unfold dmft_step. rewrite hyb_new_seq_length, length_map, length_seq. reflexivity.
Qed.

Lemma iter_dmft_step_length `{Quad} (t beta U : R) (k : nat) (hyb : list complex128) :
  length (Nat.iter k (dmft_step t beta U) hyb) = length hyb.
Proof.
  induction k as [|k IH]; simpl; [reflexivity|].
  rewrite dmft_step_length. exact IH.
Qed.

Lemma main_loop_ok `{Quad} (t beta U : R) (k : nat) :
  beta <> 0 ->
  forall hyb out,
    main_loop k t beta U hyb out
    = ((out ++ dots k)%string, Ok (Nat.iter k (dmft_step t beta U) hyb)).
Proof.
  intros Hb. induction k as [|k IH]; intros hyb out.
  - simpl. rewrite string_app_nil_r. reflexivity.
  - cbn [main_loop]. rewrite iteration_ok by exact Hb.
    rewrite IH. rewrite Nat.iter_succ_r. rewrite string_app_assoc. reflexivity.
Qed.

Lemma frequencies_ok (beta : R) (N : nat) :
  beta <> 0 ->
  for_range N (fun n => py_div ((2 * INR n + 1) * PI) beta)
  = Ok (map (Spec.omega beta) (seq 0 N)).
Proof.
  intros Hb. apply for_range_pure. intros n _. unfold py_div.
  destruct (Req_dec_T beta 0); [contradiction | reflexivity].
Qed.

Lemma main_with_spec_aux `{Quad} (n_freq : nat) (t beta U : R) (iter_max : nat) :
  beta <> 0 ->
  main_with n_freq t beta U iter_max
  = (dots iter_max,
     Ok (map (Spec.omega beta) (seq 0 n_freq),
         Nat.iter iter_max (dmft_step t beta U) (repeat c_zero n_freq))) /\
  length (map (Spec.omega beta) (seq 0 n_freq)) = n_freq /\
  length (Nat.iter iter_max (dmft_step t beta U) (repeat c_zero n_freq)) = n_freq.
Proof.
  intros Hb0. split.
  { unfold main_with. rewrite main_loop_ok by exact Hb0. simpl.
    rewrite frequencies_ok by exact Hb0. reflexivity. }
  split; [rewrite length_map, length_seq; reflexivity|].
  rewrite iter_dmft_step_length, repeat_length. reflexivity.
Qed.

(** C3: the driver starts from the all-zero hybridization of length
    [n_freq], runs the loop body exactly [iter_max] times (one dot printed
    per pass, no early exit), and returns the frequencies
    [omega_n = (2n+1)*pi/beta], [n < n_freq], together with the
    [iter_max]-fold iterate of the one-step map on the zero sequence, of
    length [n_freq]. *)
Theorem main_with_spec `{Quad} (n_freq : nat) (t beta U : R) (iter_max : nat) :
  0 < beta ->
  (forall hyb, iteration t beta U hyb = Ok (dmft_step t beta U hyb)) /\
  main_with n_freq t beta U iter_max
  = (dots iter_max,
     Ok (map (Spec.omega beta) (seq 0 n_freq),
         Nat.iter iter_max (dmft_step t beta U) (repeat c_zero n_freq))) /\
  String.length (dots iter_max) = iter_max /\
  length (map (Spec.omega beta) (seq 0 n_freq)) = n_freq /\
  length (Nat.iter iter_max (dmft_step t beta U) (repeat c_zero n_freq)) = n_freq.
Proof.
  intros Hb. assert (Hb0 : beta <> 0) by lra.
  split; [intros hyb; apply iteration_ok; exact Hb0|].
  destruct (main_with_spec_aux n_freq t beta U iter_max Hb0) as [E [Hf Hy]].
  split; [exact E|].
  split; [apply dots_length|].
  split; assumption.
Qed.

Lemma main_with_spec_witness :
  @main midpoint_dblquad
  = (dots 5,
     Ok (map (Spec.omega 100) (seq 0 200),
         Nat.iter 5 (@dmft_step midpoint_dblquad (-1) 100 0) (repeat c_zero 200))).
Proof.
  apply (@main_with_spec midpoint_dblquad 200 (-1) 100 0 5). lra.
Defined.

(** C7: every operation preserves the number [N] of frequencies.  For
    [beta > 0]: [solve] maps a hybridization of length [N] to a Green
    function of length [N]; on inputs of length [N] the self-energy, the
    lattice Green function and the hybridization computed by the
    self-consistency step all have length [N]; and the driver returns a
    frequency grid and a hybridization both of length [n_freq = N]. *)
Theorem lengths_preserved `{Quad} (N : nat) (t beta U : R) :
  0 < beta ->
  (forall hyb, length hyb = N ->
     exists G, ImpuritySolver.solve (ImpuritySolver.mk (Model.mk t beta U hyb)) = Ok G /\
               length G = N) /\
  (forall hyb G, length hyb = N -> length G = N ->
     let self := SelfConsistency.mk (Model.mk t beta U hyb) G in
     exists Sigma G_new hyb_new,
       SelfConsistency.extract_self_energy self = Ok Sigma /\
       SelfConsistency.green_impurity_new self Sigma = Ok G_new /\
       SelfConsistency.extract_hyb self Sigma G_new = Ok hyb_new /\
       SelfConsistency.run_selfconsistency self = Ok hyb_new /\
       length Sigma = N /\ length G_new = N /\ length hyb_new = N) /\
  (forall iter_max,
     exists frequencies hyb,
       snd (main_with N t beta U iter_max) = Ok (frequencies, hyb) /\
       length frequencies = N /\ length hyb = N).
Proof.
  intros Hb. assert (Hb0 : beta <> 0) by lra.
  split; [|split].
  - intros hyb Hh. eexists. split; [apply solve_ok; exact Hb0|].
    rewrite length_map, length_seq. exact Hh.
  - intros hyb G Hh HG self.
    set (m := Model.mk t beta U hyb).
    assert (Hs : length (sigma_seq m G) = length G) by apply sigma_seq_length.
    assert (Hg : length (g_new_seq m G (sigma_seq m G)) = length G)
      by apply g_new_seq_length.
    exists (sigma_seq m G), (g_new_seq m G (sigma_seq m G)),
           (hyb_new_seq m G (sigma_seq m G) (g_new_seq m G (sigma_seq m G))).
    split; [apply extract_self_energy_ok; [exact Hb0 | simpl; lia]|].
    split; [apply green_impurity_new_ok; [exact Hb0 | exact Hs]|].
    split; [apply extract_hyb_ok; [exact Hb0 | exact Hs | exact Hg]|].
    split; [apply run_selfconsistency_ok; [exact Hb0 | simpl; lia]|].
    rewrite Hs, Hg, hyb_new_seq_length. repeat split; exact HG.
  - intros iter_max.
    destruct (main_with_spec_aux N t beta U iter_max Hb0) as [E [Hf Hy]].
    do 2 eexists. rewrite E. simpl. split; [reflexivity|]. split; assumption.
Qed.

(** ** Division by an exact zero *)

Lemma nan_not_finite (z : complex128) : im z = NaN -> ~ c_finite z.
Proof. intros E [_ Hi]. rewrite E in Hi. exact Hi. Qed.

Lemma sigma_seq_nan (m : Model.Model) (G : list complex128) (n : nat) :
  (n < length G)%nat ->
  nth n G c_zero = c_zero ->
  im (nth n (sigma_seq m G) c_zero) = NaN.
Proof.
  intros Hn Hz. unfold sigma_seq. rewrite nth_map_seq by exact Hn.
  rewrite Hz, c_inv_zero. cbn [im c_sub]. apply f_sub_nan_r.
Qed.

Lemma hyb_new_seq_nan (m : Model.Model) (G sigma g_new : list complex128) (n : nat) :
  (n < length G)%nat ->
  im (nth n sigma c_zero) = NaN \/ nth n g_new c_zero = c_zero ->
  im (nth n (hyb_new_seq m G sigma g_new) c_zero) = NaN.
Proof.
  intros Hn Hz. unfold hyb_new_seq. rewrite nth_map_seq by exact Hn.
  destruct Hz as [Hs | Hg].
  - cbn [im c_sub]. rewrite Hs. apply f_sub_nan_r.
  - rewrite Hg, c_inv_zero. cbn [im c_sub]. rewrite f_sub_nan_r. apply f_sub_nan_l.
Qed.

Lemma run_selfconsistency_zero `{Quad} (m : Model.Model) (G : list complex128) (n : nat) :
  Model.beta m <> 0 ->
  (length G <= length (Model.hyb m))%nat ->
  (n < length G)%nat ->
  nth n G c_zero = c_zero
  \/ nth n (g_new_seq m G (sigma_seq m G)) c_zero = c_zero ->
  exists hyb_new,
    SelfConsistency.run_selfconsistency (SelfConsistency.mk m G) = Ok hyb_new /\
    length hyb_new = length G /\
    im (nth n hyb_new c_zero) = NaN.
Proof.
  intros Hb Hlen Hn Hz.
  eexists. split; [apply run_selfconsistency_ok; assumption|].
  split; [apply hyb_new_seq_length|].
  apply hyb_new_seq_nan; [exact Hn|].
  destruct Hz as [Hz | Hz]; [left; apply sigma_seq_nan; assumption | right; exact Hz].
Qed.

(** C6, as stated, fails: with a zero entry in the impurity Green function
    the step raises nothing; it returns a sequence whose entry is not a
    number. *)
Lemma zero_green_impurity_raises_nothing :
  nth 0 [c_zero] c_zero = c_zero /\
  (exists hyb_new,
     @SelfConsistency.run_selfconsistency midpoint_dblquad
       (SelfConsistency.mk (Model.mk (-1) 100 0 [c_zero]) [c_zero]) = Ok hyb_new /\
     length hyb_new = 1%nat /\
     im (nth 0 hyb_new c_zero) = NaN) /\
  (forall e,
     @SelfConsistency.run_selfconsistency midpoint_dblquad
       (SelfConsistency.mk (Model.mk (-1) 100 0 [c_zero]) [c_zero]) <> Raise e).
Proof.
  assert (Hrun : exists hyb_new,
     @SelfConsistency.run_selfconsistency midpoint_dblquad
       (SelfConsistency.mk (Model.mk (-1) 100 0 [c_zero]) [c_zero]) = Ok hyb_new /\
     length hyb_new = 1%nat /\
     im (nth 0 hyb_new c_zero) = NaN).
  { apply (@run_selfconsistency_zero midpoint_dblquad
             (Model.mk (-1) 100 0 [c_zero]) [c_zero] 0%nat); simpl; try lra; try lia.
    left. reflexivity. }
  split; [reflexivity|]. split; [exact Hrun|].
  intros e E. destruct Hrun as (h & Hh & _). rewrite Hh in E. discriminate.
Qed.

(** C6, amended: for [beta > 0] and inputs of length [N], a zero entry of
    the impurity Green function, or of the integrated lattice Green function
    [G_new], raises no exception.  NumPy's complex division returns
    [inf + nan j], no component tests for it, and the step still returns a
    full sequence of length [N] whose [n]-th entry has a [nan] imaginary
    part (and so is not finite); when [G_imp[n]] is zero the extracted
    self-energy [Sigma[n]] is already not a number. *)
Theorem zero_division_yields_nan `{Quad} (m : Model.Model) (G : list complex128) (N : nat) :
  0 < Model.beta m ->
  length (Model.hyb m) = N ->
  length G = N ->
  let self := SelfConsistency.mk m G in
  exists Sigma G_new hyb_new,
    SelfConsistency.extract_self_energy self = Ok Sigma /\
    SelfConsistency.green_impurity_new self Sigma = Ok G_new /\
    SelfConsistency.run_selfconsistency self = Ok hyb_new /\
    length hyb_new = N /\
    c_div c_one c_zero = Cx PInf NaN /\
    forall n, (n < N)%nat ->
      (nth n G c_zero = c_zero ->
         im (nth n Sigma c_zero) = NaN /\
         im (nth n hyb_new c_zero) = NaN /\
         ~ c_finite (nth n hyb_new c_zero)) /\
      (nth n G_new c_zero = c_zero ->
         im (nth n hyb_new c_zero) = NaN /\
         ~ c_finite (nth n hyb_new c_zero)).
Proof.
  intros Hb Hh HG self.
  assert (Hb0 : Model.beta m <> 0) by lra.
  exists (sigma_seq m G), (g_new_seq m G (sigma_seq m G)),
         (hyb_new_seq m G (sigma_seq m G) (g_new_seq m G (sigma_seq m G))).
  split; [apply extract_self_energy_ok; [exact Hb0 | lia]|].
  split; [apply green_impurity_new_ok; [exact Hb0 | apply sigma_seq_length]|].
  split; [apply run_selfconsistency_ok; [exact Hb0 | lia]|].
  split; [rewrite hyb_new_seq_length; exact HG|].
  split; [apply c_inv_zero|].
  intros n Hn. rewrite <- HG in Hn. split.
  - intros Hz.
    assert (Hs : im (nth n (sigma_seq m G) c_zero) = NaN)
      by (apply sigma_seq_nan; assumption).
    assert (Hy : im (nth n (hyb_new_seq m G (sigma_seq m G)
                              (g_new_seq m G (sigma_seq m G))) c_zero) = NaN)
      by (apply hyb_new_seq_nan; [exact Hn | left; exact Hs]).
    split; [exact Hs|]. split; [exact Hy | apply nan_not_finite; exact Hy].
  - intros Hz.
    assert (Hy : im (nth n (hyb_new_seq m G (sigma_seq m G)
                              (g_new_seq m G (sigma_seq m G))) c_zero) = NaN)
      by (apply hyb_new_seq_nan; [exact Hn | right; exact Hz]).
    split; [exact Hy | apply nan_not_finite; exact Hy].
Qed.

Lemma zero_division_yields_nan_witness :
  exists hyb_new,
    @SelfConsistency.run_selfconsistency midpoint_dblquad
      (SelfConsistency.mk (Model.mk (-1) 100 0 [c_zero]) [c_zero]) = Ok hyb_new /\
    ~ c_finite (nth 0 hyb_new c_zero).
Proof.
  destruct (@zero_division_yields_nan midpoint_dblquad
              (Model.mk (-1) 100 0 [c_zero]) [c_zero] 1)
    as (Sigma & G_new & hyb_new & _ & _ & Hrun & _ & _ & Hn).
  - simpl. lra.
  - reflexivity.
  - reflexivity.
  - exists hyb_new. split; [exact Hrun|].
    destruct (Hn 0%nat) as [Hz _]; [lia|].
    apply Hz. reflexivity.
Defined.

Lemma lengths_preserved_witness :
  exists G,
    ImpuritySolver.solve (ImpuritySolver.mk (Model.mk (-1) 100 0 [c_zero; c_zero])) = Ok G /\
    length G = 2%nat.
Proof.
  apply (@lengths_preserved midpoint_dblquad 2 (-1) 100 0).
  - lra.
  - reflexivity.
Defined.

(** ** The two ways to raise *)

(** X1: A hybridization shorter than the Green function: [hyb[n]] runs out of
    range in the first loop. *)
Lemma run_selfconsistency_index_error `{Quad} (m : Model.Model) (G : list complex128) :
  Model.beta m <> 0 ->
  (length (Model.hyb m) < length G)%nat ->
  SelfConsistency.run_selfconsistency (SelfConsistency.mk m G) = Raise IndexError.
Proof.
  intros Hb Hlen. unfold SelfConsistency.run_selfconsistency.
  assert (E : SelfConsistency.extract_self_energy (SelfConsistency.mk m G)
              = Raise IndexError).
  { unfold SelfConsistency.extract_self_energy. simpl.
    apply (for_range_first_raise _ (length (Model.hyb m)) _
             (fun n => c_sub (c_sub (fin (Spec.iw (Model.beta m) n))
                                    (nth n (Model.hyb m) c_zero))
                             (c_div c_one (nth n G c_zero)))).
    - exact Hlen.
    - intros n Hn. rewrite iwn_ok by exact Hb. simpl.
      rewrite (getitem_nth _ _ c_zero) by exact Hn. simpl.
      rewrite (getitem_nth _ _ c_zero) by lia. reflexivity.
    - rewrite iwn_ok by exact Hb. simpl.
      rewrite getitem_out by lia. reflexivity. }
  rewrite E. reflexivity.
Qed.

(** [beta = 0]: the Python-level division in [iwn] raises at [n = 0]. *)
Lemma solve_zero_beta (t U : R) (h : complex128) (hyb : list complex128) :
  ImpuritySolver.solve (ImpuritySolver.mk (Model.mk t 0 U (h :: hyb)))
  = Raise ZeroDivisionError.
Proof.
  unfold ImpuritySolver.solve. simpl length.
  apply (for_range_first_raise _ 0%nat _ (fun _ => c_zero)).
  - lia.
  - intros n Hn. lia.
  - unfold ImpuritySolver.denominator, iwn. simpl.
    destruct (Req_dec_T 0 0) as [_ | Hne]; [reflexivity | contradiction].
Qed.

(** ** Exact integration over the Brillouin zone *)

Lemma RInt_RiemannInt (f : R -> R) (a b : R) (pr : Riemann_integrable f a b) :
  RInt f a b = RiemannInt pr.
Proof.
  unfold RInt.
  destruct (excluded_middle_informative (inhabited (Riemann_integrable f a b))) as [H | H].
  - apply RiemannInt_P5.
  - exfalso. apply H. constructor. exact pr.
Qed.

(** The fundamental theorem of calculus for a continuous integrand with a
    known antiderivative. *)
Lemma RInt_FTC (f F : R -> R) (a b : R) :
  a <= b ->
  (forall x, derivable_pt_lim F x (f x)) ->
  continuity f ->
  RInt f a b = F b - F a.
Proof.
  intros Hab HF Hc.
  set (dF := fun x => exist (fun l => derivable_pt_abs F x l) (f x) (HF x) : derivable_pt F x).
  assert (Hcd : continuity (derive F dF)).
  { intros x. exact (Hc x). }
  assert (pr : Riemann_integrable (derive (mkC1 Hcd) (diff0 (mkC1 Hcd))) a b).
  { apply continuity_implies_RiemannInt; [exact Hab | intros x _; apply Hcd]. }
  pose proof (FTC_Riemann (mkC1 Hcd) pr) as E. simpl in E.
  rewrite <- E. apply (RInt_RiemannInt f a b pr).
Qed.

Lemma dlim_eq (F : R -> R) (x l l' : R) :
  derivable_pt_lim F x l -> l = l' -> derivable_pt_lim F x l'.
Proof. intros H <-. exact H. Qed.

Ltac dlim :=
  repeat first
    [ apply derivable_pt_lim_plus
    | apply derivable_pt_lim_mult
    | apply derivable_pt_lim_const
    | apply derivable_pt_lim_id
    | apply derivable_pt_lim_sin
    | apply derivable_pt_lim_cos ].

Lemma exact_dblquad_finite (f : R -> R -> R) (a b : R) (g h : R -> R) :
  exact_dblquad (fun kx ky => Finite (f kx ky)) a b g h
  = Finite (RInt (fun x => RInt (fun y => f y x) (g x) (h x)) a b).
Proof.
  unfold exact_dblquad.
  destruct (excluded_middle_informative _) as [_ | Hn].
  - reflexivity.
  - exfalso. apply Hn. intros y x. exact I.
Qed.

Lemma minus_PI_le_PI : - PI <= PI.
Proof. pose proof PI_RGT_0. lra. Qed.

(** The integral of a linear combination [k*(cos x + c)] over a period. *)
Lemma RInt_cos_shift (k c : R) :
  RInt (fun y => k * (cos y + c)) (- PI) PI = k * (2 * PI * c).
Proof.
  rewrite (RInt_FTC _ (fun y => k * (sin y + y * c))).
  - rewrite sin_neg, sin_PI. ring.
  - apply minus_PI_le_PI.
  - intros y.
    change (fun y => k * (sin y + y * c))
      with (fct_cte k * (sin + id * fct_cte c))%F.
    eapply dlim_eq; [dlim | unfold fct_cte, plus_fct, mult_fct, id; ring].
  - reg.
Qed.

(** The integral of [k*(cos x + c)^2] over a period. *)
Lemma RInt_cos_shift_sq (k c : R) :
  RInt (fun y => k * ((cos y + c) * (cos y + c))) (- PI) PI
  = k * (PI + 2 * PI * (c * c)).
Proof.
  rewrite (RInt_FTC _
             (fun y => k * ((y / 2 + sin y * cos y / 2) + 2 * sin y * c + y * (c * c)))).
  - rewrite sin_neg, sin_PI. field.
  - apply minus_PI_le_PI.
  - intros y.
    change (fun y => k * ((y / 2 + sin y * cos y / 2) + 2 * sin y * c + y * (c * c)))
      with (fct_cte k *
            ((id * fct_cte (/ 2) + sin * cos * fct_cte (/ 2))
             + fct_cte 2 * sin * fct_cte c + id * fct_cte (c * c)))%F.
    eapply dlim_eq; [dlim | unfold fct_cte, plus_fct, mult_fct, id].
    pose proof (sin2_cos2 y) as Hsc. unfold Rsqr in Hsc.
    generalize dependent (sin y). generalize (cos y). intros u v Hv.
    assert (E : v * - v = u * u - 1) by nra.
    rewrite E. field.
  - reg.
Qed.

(** The integral of the dispersion over the Brillouin zone. *)
Lemma int_eps_exact (t : R) :
  exact_dblquad (fun kx ky => Finite (Spec.eps t kx ky))
    kx_limit_low kx_limit_high ky_limit_low ky_limit_high
  = Finite 0.
Proof.
  rewrite exact_dblquad_finite. f_equal.
  unfold kx_limit_low, kx_limit_high, ky_limit_low, ky_limit_high, Spec.eps.
  replace (fun x => RInt (fun y => -2 * t * (cos y + cos x)) (- PI) PI)
    with (fun x => (-2 * t * (2 * PI)) * (cos x + 0)).
  - rewrite RInt_cos_shift. ring.
  - apply functional_extensionality; intros x. rewrite RInt_cos_shift. ring.
Qed.

(** The integral of the squared dispersion over the Brillouin zone. *)
Lemma int_eps_squared_exact (t : R) :
  exact_dblquad (fun kx ky => Finite (Spec.eps t kx ky * Spec.eps t kx ky))
    kx_limit_low kx_limit_high ky_limit_low ky_limit_high
  = Finite (4 * (t * t) * two_pi_sq).
Proof.
  rewrite exact_dblquad_finite. f_equal.
  unfold kx_limit_low, kx_limit_high, ky_limit_low, ky_limit_high, Spec.eps.
  replace (fun x => RInt (fun y => -2 * t * (cos y + cos x) * (-2 * t * (cos y + cos x)))
                         (- PI) PI)
    with (fun x => (4 * (t * t) * PI) * (1 + 0)
                   + (4 * (t * t) * (2 * PI)) * ((cos x + 0) * (cos x + 0))).
  - rewrite (RInt_FTC _
               (fun x => (4 * (t * t) * PI) * (1 + 0) * x
                         + (4 * (t * t) * (2 * PI))
                           * ((x / 2 + sin x * cos x / 2) + 2 * sin x * 0 + x * (0 * 0)))).
    + rewrite sin_neg, sin_PI. unfold two_pi_sq. field.
    + apply minus_PI_le_PI.
    + intros x.
      change (fun x => (4 * (t * t) * PI) * (1 + 0) * x
                       + (4 * (t * t) * (2 * PI))
                         * ((x / 2 + sin x * cos x / 2) + 2 * sin x * 0 + x * (0 * 0)))
        with (fct_cte ((4 * (t * t) * PI) * (1 + 0)) * id
              + fct_cte (4 * (t * t) * (2 * PI)) *
                ((id * fct_cte (/ 2) + sin * cos * fct_cte (/ 2))
                 + fct_cte 2 * sin * fct_cte 0 + id * fct_cte (0 * 0)))%F.
      eapply dlim_eq; [dlim | unfold fct_cte, plus_fct, mult_fct, id].
      pose proof (sin2_cos2 x) as Hsc. unfold Rsqr in Hsc.
      generalize dependent (sin x). generalize (cos x). intros u v Hv.
      assert (E : v * - v = u * u - 1) by nra.
      rewrite E. field.
    + reg.
  - apply functional_extensionality; intros x.
    replace (fun y => -2 * t * (cos y + cos x) * (-2 * t * (cos y + cos x)))
      with (fun y => (4 * (t * t)) * ((cos y + cos x) * (cos y + cos x)))
      by (apply functional_extensionality; intros y; ring).
    rewrite RInt_cos_shift_sq. ring.
Qed.

Lemma hyb_fm_exact (t : R) :
  @hyb_fm_with exact_dblquad (Spec.eps t) = Finite (4 * (t * t)).
Proof.
  unfold hyb_fm_with. rewrite int_eps_exact, int_eps_squared_exact.
  pose proof two_pi_sq_pos. unfold f_sub. simpl. f_equal. field. lra.
Qed.

Lemma eps_k_is_Spec_eps_at_one : eps_k = Spec.eps 1.
Proof.
  apply functional_extensionality; intros kx.
  apply functional_extensionality; intros ky.
  unfold eps_k, Spec.eps. ring.
Qed.

Lemma get_hyb_fm_exact_value : @get_hyb_fm exact_dblquad = Finite 4.
Proof.
  change (@get_hyb_fm exact_dblquad) with (@hyb_fm_with exact_dblquad eps_k).
  rewrite eps_k_is_Spec_eps_at_one, hyb_fm_exact. f_equal. ring.
Qed.

(** C9: with [dblquad] read as exact integration over
    [-pi, pi] x [-pi, pi], the integral of the dispersion, and so its
    Brillouin-zone average, is exactly [0], and [get_hyb_fm] returns exactly
    [4], which is also the first moment of the [t = -1] square-lattice
    dispersion; it is therefore within [1e-6] of [4.0]. *)
Theorem get_hyb_fm_exact :
  exact_dblquad (fun kx ky => Finite (eps_k kx ky))
    kx_limit_low kx_limit_high ky_limit_low ky_limit_high = Finite 0 /\
  f_mul (Finite (1 / two_pi_sq))
    (exact_dblquad (fun kx ky => Finite (eps_k kx ky))
       kx_limit_low kx_limit_high ky_limit_low ky_limit_high) = Finite 0 /\
  @get_hyb_fm exact_dblquad = Finite 4 /\
  (forall beta U hyb,
     @hyb_fm_with exact_dblquad (Model.eps_k (Model.mk (-1) beta U hyb)) = Finite 4) /\
  Rabs (to_R (@get_hyb_fm exact_dblquad) - 4) <= 1 / 1000000.
Proof.
  assert (H0 : exact_dblquad (fun kx ky => Finite (eps_k kx ky))
                 kx_limit_low kx_limit_high ky_limit_low ky_limit_high = Finite 0).
  { rewrite eps_k_is_Spec_eps_at_one. apply int_eps_exact. }
  split; [exact H0|].
  split; [rewrite H0; simpl; f_equal; ring|].
  split; [apply get_hyb_fm_exact_value|].
  split.
  - intros beta U hyb.
    change (Model.eps_k (Model.mk (-1) beta U hyb)) with (Spec.eps (-1)).
    rewrite hyb_fm_exact. f_equal. ring.
  - rewrite get_hyb_fm_exact_value. simpl.
    replace (4 - 4) with 0 by ring. rewrite Rabs_R0. lra.
Qed.

(** C10: the module-level [eps_k] has no hopping argument and is
    [-2*(cos kx + cos ky)]; wherever [cos kx + cos ky <> 0] it agrees with
    [Model.eps_k] exactly when [t = 1], so the two functions are equal
    exactly when [t = 1]; and [get_hyb_fm] is the first-moment arithmetic on
    the [t = 1] dispersion whatever model is configured: under exact
    integration it is [4] for every model, while the same arithmetic on the
    model's own dispersion would give [4*t^2]. *)
Theorem eps_k_vs_Model_eps_k (m : Model.Model) :
  (forall kx ky, eps_k kx ky = -2 * (cos kx + cos ky)) /\
  (forall kx ky, cos kx + cos ky <> 0 ->
     (Model.eps_k m kx ky = eps_k kx ky <-> Model.t m = 1)) /\
  ((forall kx ky, Model.eps_k m kx ky = eps_k kx ky) <-> Model.t m = 1) /\
  (forall (Q : Quad),
     @get_hyb_fm Q
     = @hyb_fm_with Q (Model.eps_k (Model.mk 1 (Model.beta m) (Model.U m) (Model.hyb m)))) /\
  @get_hyb_fm exact_dblquad = Finite 4 /\
  @hyb_fm_with exact_dblquad (Model.eps_k m) = Finite (4 * (Model.t m * Model.t m)).
Proof.
  split; [reflexivity|].
  assert (Hpt : forall kx ky, cos kx + cos ky <> 0 ->
            (Model.eps_k m kx ky = eps_k kx ky <-> Model.t m = 1)).
  { intros kx ky Hc. unfold Model.eps_k, eps_k. split; intros E.
    - apply (Rmult_eq_reg_r (cos kx + cos ky)); [lra | exact Hc].
    - rewrite E. ring. }
  split; [exact Hpt|].
  split.
  - split; intros E.
    + apply (Hpt 0 0); [rewrite cos_0; lra | apply E].
    + intros kx ky. unfold Model.eps_k, eps_k. rewrite E. ring.
  - split; [|split].
    + intros Q. unfold get_hyb_fm, hyb_fm_with, eps_k_squared.
      rewrite <- (eps_k_is_Model_eps_k_at_one (Model.beta m) (Model.U m) (Model.hyb m)).
      reflexivity.
    + apply get_hyb_fm_exact_value.
    + apply (hyb_fm_exact (Model.t m)).
Qed.


(** * Further properties of the code *)

(** ** Shapes, empty inputs and the two exceptions *)

Lemma run_selfconsistency_index_error_witness :
  @SelfConsistency.run_selfconsistency midpoint_dblquad
    (SelfConsistency.mk (Model.mk (-1) 100 0 []) [c_one]) = Raise IndexError.
Proof.
  apply (@run_selfconsistency_index_error midpoint_dblquad).
  - simpl. lra.
  - simpl. lia.
Defined.

Lemma sigma_seq_app (t beta U : R) (hyb extra G : list complex128) :
  (length G <= length hyb)%nat ->
  sigma_seq (Model.mk t beta U (hyb ++ extra)) G = sigma_seq (Model.mk t beta U hyb) G.
Proof.
  intros Hlen. unfold sigma_seq. apply map_ext_in. intros n Hn.
  apply in_seq in Hn. simpl. rewrite app_nth1 by lia. reflexivity.
Qed.

(** X2: A hybridization longer than the Green function: the step reads only the
    first [len(green_impurity)] entries of [hyb], returns normally, and its
    output has the length of the Green function, not of [hyb]. *)
Theorem run_selfconsistency_longer_hyb `{Quad} (t beta U : R)
    (hyb extra G : list complex128) :
  beta <> 0 ->
  (length G <= length hyb)%nat ->
  exists hyb_new,
    SelfConsistency.run_selfconsistency
      (SelfConsistency.mk (Model.mk t beta U (hyb ++ extra)) G) = Ok hyb_new /\
    SelfConsistency.run_selfconsistency
      (SelfConsistency.mk (Model.mk t beta U hyb) G) = Ok hyb_new /\
    length hyb_new = length G.
Proof.
  intros Hb Hlen.
  exists (hyb_new_seq (Model.mk t beta U hyb) G
            (sigma_seq (Model.mk t beta U hyb) G)
            (g_new_seq (Model.mk t beta U hyb) G (sigma_seq (Model.mk t beta U hyb) G))).
  split; [|split].
  - rewrite run_selfconsistency_ok; [| exact Hb | simpl; rewrite length_app; lia].
    rewrite sigma_seq_app by exact Hlen. reflexivity.
  - apply run_selfconsistency_ok; [exact Hb | exact Hlen].
  - apply hyb_new_seq_length.
Qed.

Lemma run_selfconsistency_longer_hyb_witness :
  exists hyb_new,
    @SelfConsistency.run_selfconsistency midpoint_dblquad
      (SelfConsistency.mk (Model.mk (-1) 100 0 ([c_zero] ++ [c_i; c_one])) [c_one])
    = Ok hyb_new /\
    @SelfConsistency.run_selfconsistency midpoint_dblquad
      (SelfConsistency.mk (Model.mk (-1) 100 0 [c_zero]) [c_one]) = Ok hyb_new /\
    length hyb_new = length [c_one].
Proof.
  apply (@run_selfconsistency_longer_hyb midpoint_dblquad).
  - lra.
  - simpl. lia.
Defined.

Lemma iwn_zero_beta (n : nat) : iwn 0 n = Raise ZeroDivisionError.
Proof.
  unfold iwn. destruct (Req_dec_T 0 0) as [_ | Hne]; [reflexivity | contradiction].
Qed.

Lemma run_selfconsistency_zero_beta `{Quad} (t U : R) (hyb G : list complex128)
    (g : complex128) :
  SelfConsistency.run_selfconsistency
    (SelfConsistency.mk (Model.mk t 0 U hyb) (g :: G)) = Raise ZeroDivisionError.
Proof.
  unfold SelfConsistency.run_selfconsistency.
  assert (E : SelfConsistency.extract_self_energy
                (SelfConsistency.mk (Model.mk t 0 U hyb) (g :: G))
              = Raise ZeroDivisionError).
  { unfold SelfConsistency.extract_self_energy. cbn [SelfConsistency.green_impurity length].
    apply (for_range_first_raise _ 0%nat _ (fun _ => c_zero)).
    - lia.
    - intros n Hn. lia.
    - cbn [SelfConsistency.model Model.beta]. rewrite iwn_zero_beta. reflexivity. }
  rewrite E. reflexivity.
Qed.

(** X3: [beta = 0]: on any non-empty input both [solve] and
    [run_selfconsistency] raise [ZeroDivisionError], from the Python-level
    division in [iwn] at [n = 0].  In the step the division comes before the
    access to [hyb[0]], so it wins even when [hyb] is too short. *)
Theorem zero_beta_raises `{Quad} (t U : R) (h g : complex128)
    (hyb hyb' G : list complex128) :
  ImpuritySolver.solve (ImpuritySolver.mk (Model.mk t 0 U (h :: hyb)))
  = Raise ZeroDivisionError /\
  SelfConsistency.run_selfconsistency
    (SelfConsistency.mk (Model.mk t 0 U hyb') (g :: G)) = Raise ZeroDivisionError /\
  SelfConsistency.run_selfconsistency
    (SelfConsistency.mk (Model.mk t 0 U []) (g :: G)) = Raise ZeroDivisionError.
Proof.
  split; [|split].
  - apply solve_zero_beta.
  - apply run_selfconsistency_zero_beta.
  - apply run_selfconsistency_zero_beta.
Qed.

Lemma iteration_zero_beta `{Quad} (t U : R) (h : complex128) (hyb : list complex128) :
  iteration t 0 U (h :: hyb) = Raise ZeroDivisionError.
Proof.
  unfold iteration. rewrite solve_zero_beta. reflexivity.
Qed.

(** X4: The driver with [beta = 0] and at least one frequency raises
    [ZeroDivisionError] whatever [iter_max] is, and prints nothing: with
    [iter_max > 0] the first pass raises before its dot, with
    [iter_max = 0] the frequency grid raises. *)
Theorem main_with_zero_beta `{Quad} (n_freq : nat) (t U : R) (iter_max : nat) :
  main_with (S n_freq) t 0 U iter_max = (""%string, Raise ZeroDivisionError).
Proof.
  unfold main_with. destruct iter_max as [|k].
  - cbn [main_loop bind].
    assert (E : for_range (S n_freq) (fun n => py_div ((2 * INR n + 1) * PI) 0)
                = Raise ZeroDivisionError).
    { apply (for_range_first_raise _ 0%nat _ (fun _ => 0)).
      - lia.
      - intros n Hn. lia.
      - unfold py_div.
        destruct (Req_dec_T 0 0) as [_ | Hne]; [reflexivity | contradiction]. }
    rewrite E. reflexivity.
  - cbn [main_loop repeat]. rewrite iteration_zero_beta. reflexivity.
Qed.

Lemma iteration_nil `{Quad} (t beta U : R) : iteration t beta U [] = Ok [].
Proof. reflexivity. Qed.

Lemma main_loop_nil `{Quad} (t beta U : R) (k : nat) (out : string) :
  main_loop k t beta U [] out = ((out ++ dots k)%string, Ok []).
Proof.
  revert out. induction k as [|k IH]; intros out.
  - simpl. rewrite string_app_nil_r. reflexivity.
  - cbn [main_loop]. rewrite iteration_nil, IH, string_app_assoc. reflexivity.
Qed.

(** X5: Empty inputs never raise, whatever [beta] is (zero included): [solve] of
    an empty hybridization and the step on an empty Green function return
    the empty sequence, and the driver with [n_freq = 0] prints its
    [iter_max] dots and returns two empty sequences. *)
Theorem empty_inputs `{Quad} (t beta U : R) (hyb : list complex128) (iter_max : nat) :
  ImpuritySolver.solve (ImpuritySolver.mk (Model.mk t beta U [])) = Ok [] /\
  SelfConsistency.run_selfconsistency
    (SelfConsistency.mk (Model.mk t beta U hyb) []) = Ok [] /\
  main_with 0 t beta U iter_max = (dots iter_max, Ok ([], [])).
Proof.
  split; [reflexivity|]. split; [reflexivity|].
  unfold main_with. cbn [repeat]. rewrite main_loop_nil. reflexivity.
Qed.

(** ** The loop of the driver *)




(** ** One frequency at a time *)

Lemma dmft_step_nth `{Quad} (t beta U : R) (hyb : list complex128) (n : nat) :
  (n < length hyb)%nat ->
  nth n (dmft_step t beta U hyb) c_zero = pass_entry t beta U n (nth n hyb c_zero).
Proof.
  intros Hn. unfold dmft_step, hyb_new_seq, g_new_seq, sigma_seq.
  rewrite !length_map, !length_seq.
  rewrite nth_map_seq by exact Hn.
  rewrite !nth_map_seq by exact Hn.
  reflexivity.
Qed.

(** X8: The frequencies are decoupled: entry [n] of the hybridization returned
    by one pass depends on the input only through its entry [n]. *)
Theorem iteration_local `{Quad} (t beta U : R) (hyb hyb' : list complex128) (n : nat) :
  beta <> 0 ->
  (n < length hyb)%nat ->
  (n < length hyb')%nat ->
  nth n hyb c_zero = nth n hyb' c_zero ->
  exists h h',
    iteration t beta U hyb = Ok h /\
    iteration t beta U hyb' = Ok h' /\
    nth n h c_zero = nth n h' c_zero.
Proof.
  intros Hb Hn Hn' E.
  exists (dmft_step t beta U hyb), (dmft_step t beta U hyb').
  split; [apply iteration_ok; exact Hb|].
  split; [apply iteration_ok; exact Hb|].
  rewrite !dmft_step_nth by assumption. rewrite E. reflexivity.
Qed.

Lemma iteration_local_witness :
  exists h h',
    @iteration midpoint_dblquad (-1) 100 0 [c_one; c_zero] = Ok h /\
    @iteration midpoint_dblquad (-1) 100 0 [c_one; c_i; c_i] = Ok h' /\
    nth 0 h c_zero = nth 0 h' c_zero.
Proof.
  apply (@iteration_local midpoint_dblquad (-1) 100 0
           [c_one; c_zero] [c_one; c_i; c_i] 0).
  - lra.
  - simpl. lia.
  - simpl. lia.
  - reflexivity.
Defined.

Lemma pass_entry_nan `{Quad} (t beta U : R) (n : nat) (h : complex128) :
  im h = NaN -> im (pass_entry t beta U n h) = NaN.
Proof.
  intros E. unfold pass_entry. cbn [im c_sub]. rewrite E.
  match goal with
  | |- f_sub ?a (f_sub (f_sub ?w NaN) ?b) = NaN =>
      rewrite (f_sub_nan_r w), (f_sub_nan_l b), (f_sub_nan_r a)
  end.
  reflexivity.
Qed.

Lemma iter_dmft_step_nan `{Quad} (t beta U : R) (k n : nat) (hyb : list complex128) :
  (n < length hyb)%nat ->
  im (nth n hyb c_zero) = NaN ->
  im (nth n (Nat.iter k (dmft_step t beta U) hyb) c_zero) = NaN.
Proof.
  intros Hn E. induction k as [|k IH]; [exact E|].
  rewrite Nat.iter_succ.
  rewrite dmft_step_nth by (rewrite iter_dmft_step_length; exact Hn).
  apply pass_entry_nan. exact IH.
Qed.

(** X9: A [nan] is never repaired: if the imaginary part of [hyb[n]] is [nan],
    every number of passes of the loop completes without raising and leaves
    a [nan] imaginary part at index [n]. *)
Theorem nan_persists `{Quad} (t beta U : R) (k n : nat) (hyb : list complex128)
    (out : string) :
  beta <> 0 ->
  (n < length hyb)%nat ->
  im (nth n hyb c_zero) = NaN ->
  exists h,
    main_loop k t beta U hyb out = ((out ++ dots k)%string, Ok h) /\
    length h = length hyb /\
    im (nth n h c_zero) = NaN.
Proof.
  intros Hb Hn E. exists (Nat.iter k (dmft_step t beta U) hyb).
  split; [apply main_loop_ok; exact Hb|].
  split; [apply iter_dmft_step_length|].
  apply iter_dmft_step_nan; assumption.
Qed.

Lemma nan_persists_witness :
  exists h,
    @main_loop midpoint_dblquad 3 (-1) 100 0 [Cx (Finite 0) NaN] ""%string
    = (("" ++ dots 3)%string, Ok h) /\
    length h = length [Cx (Finite 0) NaN] /\
    im (nth 0 h c_zero) = NaN.
Proof.
  apply (@nan_persists midpoint_dblquad (-1) 100 0 3 0 [Cx (Finite 0) NaN] ""%string).
  - lra.
  - simpl. lia.
  - reflexivity.
Defined.

(** ** The impurity Green function *)





(** ** The lattice integrand *)

Lemma g_lattice_denominator_parts (t beta : R) (sigma : C) (n : nat) (kx ky : R) :
  Spec.g_lattice_denominator t beta sigma n kx ky
  = (- Spec.eps t kx ky - fst sigma, Spec.omega beta n - snd sigma).
Proof.
  destruct sigma as [a b].
  unfold Spec.g_lattice_denominator, Spec.iw, Csub, Cmul, Ci, RtoC. simpl.
  f_equal; ring.
Qed.

Lemma green_lattice_fin (self : SelfConsistency.SelfConsistency) (n : nat)
    (sigma : C) (kx ky : R) :
  snd sigma <> Spec.omega (Model.beta (SelfConsistency.model self)) n ->
  SelfConsistency.green_lattice self
    (fin (Spec.iw (Model.beta (SelfConsistency.model self)) n)) (fin sigma) kx ky
  = fin (Spec.g_lattice (Model.t (SelfConsistency.model self))
           (Model.beta (SelfConsistency.model self)) sigma n kx ky).
Proof.
  intros Hs. unfold SelfConsistency.green_lattice.
  rewrite of_float_fin, !c_sub_fin.
  apply c_inv_fin.
  change (Csub (Csub (Spec.iw (Model.beta (SelfConsistency.model self)) n)
                     (RtoC (Model.eps_k (SelfConsistency.model self) kx ky))) sigma)
    with (Spec.g_lattice_denominator (Model.t (SelfConsistency.model self))
            (Model.beta (SelfConsistency.model self)) sigma n kx ky).
  rewrite g_lattice_denominator_parts. unfold Czero. intros E.
  injection E as _ E. lra.
Qed.

(** X11: The quadrature never meets a singular integrand when the imaginary part
    of the self-energy differs from [omega_n]: at every wavevector the
    lattice Green function is then the finite exact quotient, for every
    hopping [t].  The integrand methods return its real and imaginary part. *)
Theorem lattice_integrand_finite (m : Model.Model) (G : list complex128)
    (Sigma : list complex128) (n : nat) (sigma : C) (kx ky : R) :
  Model.beta m <> 0 ->
  nth_error Sigma n = Some (fin sigma) ->
  snd sigma <> Spec.omega (Model.beta m) n ->
  let self := SelfConsistency.mk m G in
  let g := Spec.g_lattice (Model.t m) (Model.beta m) sigma n kx ky in
  Spec.g_lattice_denominator (Model.t m) (Model.beta m) sigma n kx ky <> Czero /\
  SelfConsistency.green_lattice_scalar_real self kx ky Sigma n = Ok (Finite (fst g)) /\
  SelfConsistency.green_lattice_scalar_imag self kx ky Sigma n = Ok (Finite (snd g)).
Proof.
  intros Hb Hs Him self g.
  assert (Hn : (n < length Sigma)%nat).
  { apply nth_error_Some. rewrite Hs. discriminate. }
  assert (Hnth : nth n Sigma c_zero = fin sigma) by (apply nth_error_nth; exact Hs).
  split.
  { rewrite g_lattice_denominator_parts. unfold Czero. intros E.
    injection E as _ E. lra. }
  destruct (green_lattice_scalar_ok m G Sigma n kx ky Hb Hn) as [Hr Hi].
  subst self g. rewrite Hr, Hi, Hnth.
  pose proof (green_lattice_fin (SelfConsistency.mk m G) n sigma kx ky Him) as Hf.
  cbn [SelfConsistency.model] in Hf. rewrite Hf.
  split; reflexivity.
Qed.

Lemma lattice_integrand_finite_witness :
  @SelfConsistency.green_lattice_scalar_real
    (SelfConsistency.mk (Model.mk (-1) 1 4 [c_zero]) [c_one]) 0 0 [fin (2, 0)] 0
  = Ok (Finite (fst (Spec.g_lattice (-1) 1 (2, 0) 0 0 0))).
Proof.
  apply (lattice_integrand_finite (Model.mk (-1) 1 4 [c_zero]) [c_one]
           [fin (2, 0)] 0 (2, 0) 0 0).
  - simpl. lra.
  - reflexivity.
  - simpl. pose proof (omega_pos 1 0 Rlt_0_1). lra.
Defined.

(** ** Symmetries of the dispersion *)


(** X13: The band is bounded: [|eps_k(kx, ky)| <= 4*|t|] at every wavevector (the
    bound is reached at the zone centre). *)
Theorem Model_eps_k_bound (m : Model.Model) (kx ky : R) :
  Rabs (Model.eps_k m kx ky) <= 4 * Rabs (Model.t m) /\
  Rabs (Model.eps_k m 0 0) = 4 * Rabs (Model.t m).
Proof.
  unfold Model.eps_k. split.
  - pose proof (COS_bound kx) as [Hx1 Hx2]. pose proof (COS_bound ky) as [Hy1 Hy2].
    rewrite !Rabs_mult.
    replace (Rabs (-2)) with 2 by (rewrite Rabs_left; lra).
    assert (Hc : Rabs (cos kx + cos ky) <= 2) by (apply Rabs_le; lra).
    pose proof (Rabs_pos (Model.t m)). nra.
  - rewrite cos_0. replace (-2 * Model.t m * (1 + 1)) with (-4 * Model.t m) by ring.
    rewrite Rabs_mult. replace (Rabs (-4)) with 4 by (rewrite Rabs_left; lra).
    reflexivity.
Qed.

(** X14: [dblquad] calls its integrand as [func(y, x)] while the code writes it
    as a function of [(kx, ky)]: the lattice Green function is symmetric in
    its two wavevector arguments, so the entry computed is the same whichever
    way the arguments are read. *)
Theorem lattice_entry_swap `{Quad} (self : SelfConsistency.SelfConsistency)
    (w s : complex128) :
  (forall kx ky, SelfConsistency.green_lattice self w s kx ky
                 = SelfConsistency.green_lattice self w s ky kx) /\
  SelfConsistency.lattice_entry self w s
  = c_div
      (c_add
         (of_float
            (dblquad (fun y x => re (SelfConsistency.green_lattice self w s x y))
               kx_limit_low kx_limit_high ky_limit_low ky_limit_high))
         (c_mul c_i
            (of_float
               (dblquad (fun y x => im (SelfConsistency.green_lattice self w s x y))
                  kx_limit_low kx_limit_high ky_limit_low ky_limit_high))))
      (of_float (Finite two_pi_sq)).
Proof.
  assert (Hsym : forall kx ky, SelfConsistency.green_lattice self w s kx ky
                               = SelfConsistency.green_lattice self w s ky kx).
  { intros kx ky. unfold SelfConsistency.green_lattice, Model.eps_k.
    rewrite (Rplus_comm (cos kx) (cos ky)). reflexivity. }
  split; [exact Hsym|].
  unfold SelfConsistency.lattice_entry.
  replace (fun y x => re (SelfConsistency.green_lattice self w s x y))
    with (fun kx ky => re (SelfConsistency.green_lattice self w s kx ky)).
  2:{ apply functional_extensionality; intros kx.
      apply functional_extensionality; intros ky. rewrite Hsym. reflexivity. }
  replace (fun y x => im (SelfConsistency.green_lattice self w s x y))
    with (fun kx ky => im (SelfConsistency.green_lattice self w s kx ky)).
  2:{ apply functional_extensionality; intros kx.
      apply functional_extensionality; intros ky. rewrite Hsym. reflexivity. }
  reflexivity.
Qed.

(** ** The first moment, as computed *)

(** X15: [get_hyb_fm] subtracts the integral of the dispersion itself, neither
    normalised nor squared: on finite quadrature values [a] (of [eps_k]) and
    [b] (of its square) it returns [(b - a)/(2*pi)^2].  This is the moment
    [b/(2*pi)^2 - (a/(2*pi)^2)^2] of the notebook's formula exactly when
    [a = 0] or [a = (2*pi)^2]. *)
Theorem get_hyb_fm_formula `{Quad} (a b : R) :
  dblquad (fun kx ky => Finite (eps_k kx ky))
    kx_limit_low kx_limit_high ky_limit_low ky_limit_high = Finite a ->
  dblquad (fun kx ky => Finite (eps_k_squared kx ky))
    kx_limit_low kx_limit_high ky_limit_low ky_limit_high = Finite b ->
  get_hyb_fm = Finite ((b - a) / two_pi_sq) /\
  ((b - a) / two_pi_sq = b / two_pi_sq - (a / two_pi_sq) * (a / two_pi_sq)
   <-> a = 0 \/ a = two_pi_sq).
Proof.
  intros Ha Hb. pose proof two_pi_sq_pos as Hc. split.
  - unfold get_hyb_fm. rewrite Ha, Hb. unfold f_sub. simpl. f_equal. field. lra.
  - split.
    + intros E.
      assert (Hz : a * (two_pi_sq - a) = 0).
      { replace (a * (two_pi_sq - a))
          with ((b / two_pi_sq - a / two_pi_sq * (a / two_pi_sq)
                 - (b - a) / two_pi_sq) * (two_pi_sq * two_pi_sq)) by (field; lra).
        rewrite <- E. ring. }
      apply Rmult_integral in Hz. destruct Hz as [Hz | Hz]; [left | right]; lra.
    + intros [-> | ->]; field; lra.
Qed.

Lemma get_hyb_fm_formula_witness :
  @get_hyb_fm exact_dblquad = Finite ((4 * (1 * 1) * two_pi_sq - 0) / two_pi_sq).
Proof.
  apply (@get_hyb_fm_formula exact_dblquad 0 (4 * (1 * 1) * two_pi_sq)).
  - rewrite eps_k_is_Spec_eps_at_one. apply int_eps_exact.
  - unfold eps_k_squared. rewrite eps_k_is_Spec_eps_at_one.
    apply int_eps_squared_exact.
Defined.

(** ** The update of the hybridization *)




(** ** One pass is enough *)

















(** ** The frequency grid *)



(** ** When the integrand methods raise *)

(** X20: [green_lattice_scalar_real] and [green_lattice_scalar_imag] raise
    [ZeroDivisionError] when [beta = 0], and otherwise [IndexError] when [n]
    is out of range of the self-energy; whether and what they raise never
    depends on the wavevector. *)
Theorem green_lattice_scalar_raises (self : SelfConsistency.SelfConsistency)
    (kx ky kx' ky' : R) (self_energy : list complex128) (n : nat) :
  let beta := Model.beta (SelfConsistency.model self) in
  (beta = 0 ->
     SelfConsistency.green_lattice_scalar_real self kx ky self_energy n
       = Raise ZeroDivisionError /\
     SelfConsistency.green_lattice_scalar_imag self kx ky self_energy n
       = Raise ZeroDivisionError) /\
  (beta <> 0 -> (length self_energy <= n)%nat ->
     SelfConsistency.green_lattice_scalar_real self kx ky self_energy n
       = Raise IndexError /\
     SelfConsistency.green_lattice_scalar_imag self kx ky self_energy n
       = Raise IndexError) /\
  (forall e,
     SelfConsistency.green_lattice_scalar_real self kx ky self_energy n = Raise e <->
     SelfConsistency.green_lattice_scalar_real self kx' ky' self_energy n = Raise e) /\
  (forall e,
     SelfConsistency.green_lattice_scalar_real self kx ky self_energy n = Raise e <->
     SelfConsistency.green_lattice_scalar_imag self kx' ky' self_energy n = Raise e).
Proof.
  intros beta. subst beta.
  unfold SelfConsistency.green_lattice_scalar_real,
         SelfConsistency.green_lattice_scalar_imag, iwn.
  split; [|split; [|split]].
  - intros E. rewrite E.
    destruct (Req_dec_T 0 0) as [_ | Hne]; [split; reflexivity | contradiction].
  - intros Hb Hn.
    destruct (Req_dec_T _ 0) as [E | _]; [contradiction|].
    simpl. rewrite getitem_out by exact Hn. split; reflexivity.
  - intros e. destruct (Req_dec_T _ 0) as [E | _]; [reflexivity|].
    simpl. destruct (getitem self_energy n); simpl; [|reflexivity].
    split; discriminate.
  - intros e. destruct (Req_dec_T _ 0) as [E | _]; [reflexivity|].
    simpl. destruct (getitem self_energy n); simpl; [|reflexivity].
    split; discriminate.
Qed.

(** ** The free case *)

(** X21: [U = 0]: the solver's self-energy array is identically zero, and on a
    finite [hyb[n] = h] different from [i*omega_n] the solver returns the
    free Green function [1/(i*omega_n - h)]. *)
Theorem solve_free (t beta : R) (hyb : list complex128) (n : nat) (h : C) :
  0 < beta ->
  nth_error hyb n = Some (fin h) ->
  h <> Spec.iw beta n ->
  let self := ImpuritySolver.mk (Model.mk t beta 0 hyb) in
  ImpuritySolver.hartree_self_energy self (length hyb) = repeat c_zero (length hyb) /\
  exists G,
    ImpuritySolver.solve self = Ok G /\
    nth_error G n = Some (fin (Cdiv Cone (Csub (Spec.iw beta n) h))).
Proof.
  intros Hb Hh Hne self.
  assert (Hn : (n < length hyb)%nat) by (apply nth_error_Some; rewrite Hh; discriminate).
  apply (nth_error_nth _ _ c_zero) in Hh.
  split.
  { unfold ImpuritySolver.hartree_self_energy. rewrite map_repeat. f_equal.
    subst self. cbn [ImpuritySolver.model Model.U].
    rewrite of_float_fin. unfold c_one, c_zero. rewrite c_mul_fin. f_equal.
    unfold Cmul, RtoC, Cone, Czero. simpl. f_equal; field. }
  exists (map (fun k => c_div c_one (solve_denominator (Model.mk t beta 0 hyb) k))
              (seq 0 (length hyb))).
  split; [apply (solve_ok (Model.mk t beta 0 hyb)); simpl; lra|].
  rewrite (nth_error_nth' _ c_zero) by (rewrite length_map, length_seq; exact Hn).
  rewrite nth_map_seq by exact Hn.
  rewrite (solve_denominator_fin (Model.mk t beta 0 hyb) n h Hh).
  cbn [Model.beta Model.U].
  assert (Hd : Spec.G_imp_denominator beta 0 h n = Csub (Spec.iw beta n) h).
  { destruct h as [a b]. unfold Spec.G_imp_denominator, Csub, RtoC. simpl.
    f_equal; field. }
  rewrite Hd. rewrite c_inv_fin; [reflexivity|].
  intros E. apply Hne. destruct h as [a b], (Spec.iw beta n) as [x y].
  unfold Csub, Czero in E. simpl in E. injection E as E1 E2. f_equal; lra.
Qed.

Lemma solve_free_witness :
  exists G,
    ImpuritySolver.solve (ImpuritySolver.mk (Model.mk (-1) 100 0 [c_zero])) = Ok G /\
    nth_error G 0 = Some (fin (Cdiv Cone (Csub (Spec.iw 100 0) Czero))).
Proof.
  apply (solve_free (-1) 100 [c_zero] 0 Czero).
  - lra.
  - reflexivity.
  - unfold Spec.iw, Cmul, Ci, RtoC, Czero. simpl. intros E. injection E as _ E.
    pose proof (omega_pos 100 0). lra.
Defined.
